(** * RDF/SKOS thesaurus to JSON tree: a model of [src/src/convert.py]

    The development follows the converter function by function.  An RDF
    graph is the list of its triples in the store's iteration order; the
    wall clock is an oracle read once per emitted node; Python exceptions
    are the [Raise] results of a small state-and-error monad; the nesting
    of [concept_to_json] calls is bounded by the interpreter's recursion
    limit, which the model takes as a parameter. *)

From Stdlib Require Import ZArith List String Ascii Bool Arith Lia Relations.
From Stdlib Require Import Permutation.
Import ListNotations.
Local Open Scope string_scope.
Local Open Scope list_scope.

(* ===================================================================== *)
(** ** Version-5 UUIDs ([uuid.uuid5] of the Python standard library)     *)
(* ===================================================================== *)

Module Uuid.
Local Open Scope Z_scope.

(** 32-bit words are integers reduced modulo 2^32. *)
Definition w32 (x : Z) : Z := Z.land x 4294967295.

Definition rotl (n x : Z) : Z :=
  w32 (Z.lor (Z.shiftl x n) (Z.shiftr x (32 - n))).

(** The octets of a [str] once encoded: a Rocq [string] is the sequence
    of its UTF-8 octets. *)
Fixpoint octets (s : string) : list Z :=
  match s with
  | EmptyString => []
  | String a r => Z.of_N (N_of_ascii a) :: octets r
  end.

(** Big-endian octets of [x], [n] of them. *)
Fixpoint be_octets (n : nat) (x : Z) : list Z :=
  match n with
  | O => []
  | S m => Z.land (Z.shiftr x (8 * Z.of_nat m)) 255 :: be_octets m x
  end.

Definition be_value (l : list Z) : Z :=
  fold_left (fun acc b => Z.lor (Z.shiftl acc 8) b) l 0.

(** SHA-1 padding: a 0x80 octet, zeros up to 56 modulo 64, then the bit
    length on 64 bits. *)
Definition pad (msg : list Z) : list Z :=
  let len := Z.of_nat (List.length msg) in
  let zeros := Z.to_nat ((55 - len) mod 64) in
  msg ++ [128] ++ repeat 0 zeros ++ be_octets 8 (8 * len).

(** Splits the padded message into 16-word blocks. *)
Fixpoint words (fuel : nat) (l : list Z) : list Z :=
  match fuel, l with
  | S f, a :: b :: c :: d :: r => be_value [a; b; c; d] :: words f r
  | _, _ => []
  end.

Fixpoint blocks (fuel : nat) (ws : list Z) : list (list Z) :=
  match fuel, ws with
  | S f, _ :: _ => firstn 16 ws :: blocks f (skipn 16 ws)
  | _, _ => []
  end.

(** Message schedule, most recent word first: [rev_w] holds
    w(i-1), w(i-2), ... and [n] more words are produced. *)
Fixpoint schedule (n : nat) (rev_w : list Z) : list Z :=
  match n with
  | O => rev_w
  | S m =>
      let w := rotl 1 (Z.lxor (Z.lxor (nth 2 rev_w 0) (nth 7 rev_w 0))
                              (Z.lxor (nth 13 rev_w 0) (nth 15 rev_w 0))) in
      schedule m (w :: rev_w)
  end.

Definition state : Type := Z * Z * Z * Z * Z.

Definition round (i : nat) (st : state) (w : Z) : state :=
  let '(a, b, c, d, e) := st in
  let '(f, k) :=
    if (i <? 20)%nat then
      (Z.lor (Z.land b c) (Z.land (Z.lxor b 4294967295) d), 1518500249)
    else if (i <? 40)%nat then
      (Z.lxor (Z.lxor b c) d, 1859775393)
    else if (i <? 60)%nat then
      (Z.lor (Z.lor (Z.land b c) (Z.land b d)) (Z.land c d), 2400959708)
    else
      (Z.lxor (Z.lxor b c) d, 3395469782) in
  let temp := w32 (rotl 5 a + f + e + k + w) in
  (temp, a, rotl 30 b, c, d).

Fixpoint rounds (i : nat) (ws : list Z) (st : state) : state :=
  match ws with
  | [] => st
  | w :: r => rounds (S i) r (round i st w)
  end.

Definition compress (h : state) (block : list Z) : state :=
  let ws := rev (schedule 64 (rev block)) in
  let '(a, b, c, d, e) := rounds 0 ws h in
  let '(h0, h1, h2, h3, h4) := h in
  (w32 (h0 + a), w32 (h1 + b), w32 (h2 + c), w32 (h3 + d), w32 (h4 + e)).

Definition sha1 (msg : list Z) : list Z :=
  let p := pad msg in
  let ws := words (List.length p) p in
  let '(h0, h1, h2, h3, h4) :=
    fold_left compress (blocks (List.length ws) ws)
      (1732584193, 4023233417, 2562383102, 271733878, 3285377520) in
  be_octets 4 h0 ++ be_octets 4 h1 ++ be_octets 4 h2 ++
  be_octets 4 h3 ++ be_octets 4 h4.

(** [uuid.NAMESPACE_URL], 6ba7b811-9dad-11d1-80b4-00c04fd430c8. *)
Definition NAMESPACE_URL : list Z :=
  [107; 167; 184; 17; 157; 173; 17; 209; 128; 180; 0; 192; 79; 212; 48; 200].

Definition hex_digit (x : Z) : ascii :=
  ascii_of_N (Z.to_N (if x <? 10 then 48 + x else 87 + x)).

Fixpoint hex (l : list Z) : string :=
  match l with
  | [] => EmptyString
  | b :: r => String (hex_digit (Z.shiftr b 4))
                (String (hex_digit (Z.land b 15)) (hex r))
  end.

(** The first 16 octets of the digest with the version and variant bits
    forced, as [UUID(bytes=..., version=5)] does. *)
Definition stamp (d : list Z) : list Z :=
  match firstn 16 d with
  | [b0; b1; b2; b3; b4; b5; b6; b7; b8; b9; b10; b11; b12; b13; b14; b15] =>
      [b0; b1; b2; b3; b4; b5; Z.lor (Z.land b6 15) 80; b7;
       Z.lor (Z.land b8 63) 128; b9; b10; b11; b12; b13; b14; b15]
  | other => other
  end.

(** [str(UUID)]: groups of 8-4-4-4-12 hexadecimal digits. *)
Definition to_str (u : list Z) : string :=
  (hex (firstn 4 u) ++ "-" ++ hex (firstn 2 (skipn 4 u)) ++ "-" ++
   hex (firstn 2 (skipn 6 u)) ++ "-" ++ hex (firstn 2 (skipn 8 u)) ++ "-" ++
   hex (skipn 10 u))%string.

Definition uuid5 (namespace : list Z) (name : string) : string :=
  to_str (stamp (sha1 (namespace ++ octets name))).

End Uuid.

(* ===================================================================== *)
(** ** RDF terms and the triple store (the part of rdflib the script uses) *)
(* ===================================================================== *)

(** A term is [str(t)] together with its class; only a [Literal] has a
    [language] attribute. *)
Inductive term : Type :=
| URIRef (uri : string)
| BNode (label : string)
| Literal (lexical : string) (lang : option string) (datatype : option string).

Definition str (t : term) : string :=
  match t with
  | URIRef u => u
  | BNode b => b
  | Literal s _ _ => s
  end.

Definition option_eqb (a b : option string) : bool :=
  match a, b with
  | Some x, Some y => String.eqb x y
  | None, None => true
  | _, _ => false
  end.

(** Equality of terms as the store's lookups see it.  On URIRef and BNode
    this is rdflib's [==].  The script compares stored terms with URIRef
    constants and with the subject it asks about only, and a store filled
    by a parser has no Literal as a subject. *)
Definition term_eqb (a b : term) : bool :=
  match a, b with
  | URIRef x, URIRef y => String.eqb x y
  | BNode x, BNode y => String.eqb x y
  | Literal s l d, Literal s' l' d' =>
      String.eqb s s' && option_eqb l l' && option_eqb d d'
  | _, _ => false
  end.

Definition triple : Type := term * term * term.

(** The store, as the sequence of its triples in iteration order. *)
Definition Graph : Type := list triple.

(** [graph.objects(s, p)], also what [graph.triples((s, p, None))] binds
    to its third component. *)
Definition objects (g : Graph) (s p : term) : list term :=
  map (fun t => snd t)
      (filter (fun t => term_eqb (fst (fst t)) s && term_eqb (snd (fst t)) p) g).

(** [graph.subjects(p, o)]. *)
Definition subjects (g : Graph) (p o : term) : list term :=
  map (fun t => fst (fst t))
      (filter (fun t => term_eqb (snd (fst t)) p && term_eqb (snd t) o) g).

(** [graph.value(s, p, None)]: the first object, or [None]. *)
Definition value (g : Graph) (s p : term) : option term :=
  hd_error (objects g s p).

(** [str(x)] where [x] may be [None]. *)
Definition str_or_None (x : option term) : string :=
  match x with
  | Some t => str t
  | None => "None"
  end.

Definition DC (local : string) : term :=
  URIRef ("http://purl.org/dc/elements/1.1/" ++ local)%string.
Definition DCT (local : string) : term :=
  URIRef ("http://purl.org/dc/terms/" ++ local)%string.
Definition SKOS (local : string) : term :=
  URIRef ("http://www.w3.org/2004/02/skos/core#" ++ local)%string.
Definition RDF_type : term :=
  URIRef "http://www.w3.org/1999/02/22-rdf-syntax-ns#type".

(* ===================================================================== *)
(** ** Exceptions, the clock and the output nodes                        *)
(* ===================================================================== *)

Inductive exn : Type :=
| IndexError       (* [list(...)[0]] on an empty list *)
| AttributeError   (* [.language] on a term that is not a Literal *)
| RecursionError.  (* the recursion limit is reached *)

Inductive result (A : Type) : Type :=
| Ok (a : A)
| Raise (e : exn).
Arguments Ok {A} a.
Arguments Raise {A} e.

(** A computation reads the clock: the state is the number of readings
    made so far. *)
Definition M (A : Type) : Type := nat -> result (A * nat).

Definition ret {A} (a : A) : M A := fun k => Ok (a, k).

Definition bind {A B} (c : M A) (f : A -> M B) : M B :=
  fun k => match c k with
           | Ok (a, k') => f a k'
           | Raise e => Raise e
           end.

Definition lift {A} (r : result A) : M A :=
  fun k => match r with
           | Ok a => Ok (a, k)
           | Raise e => Raise e
           end.

Definition raise {A} (e : exn) : M A := fun _ => Raise e.

Notation "x <- c ;; k" := (bind c (fun x => k))
  (at level 61, c at next level, right associativity).

(** The dict built for a node.  [children] and [showChildren] are keys
    that a dict may lack; [creationDate] is always present and may hold
    [None]. *)
Local Unset Elimination Schemes.
Inductive node : Type :=
  Node { type : string;
         id : string;
         name : string;
         children : option (list node);
         creationDate : option string;
         creationTimestamp : Z;
         showChildren : option bool }.
Local Set Elimination Schemes.

Section Converter.

(** [clock k] is the value of [int(time.time() * 1000)] at the [k]-th
    reading of a run. *)
Variable clock : nat -> Z.

Definition time_ms : M Z := fun k => Ok (clock k, S k).

Definition generate_id (uri : string) : string :=
  Uuid.uuid5 Uuid.NAMESPACE_URL uri.

Definition has_children (graph : Graph) (subject : term) : bool :=
  (0 <? List.length (objects graph subject (SKOS "narrower")))%nat.

Definition language (label : term) : result (option string) :=
  match label with
  | Literal _ l _ => Ok l
  | _ => Raise AttributeError
  end.

(** The [for] loop of [get_pref_label_fr]: [Ok (Some s)] when it returns
    [s], [Ok None] when it runs to its end. *)
Fixpoint first_fr (labels : list term) : result (option string) :=
  match labels with
  | [] => Ok None
  | label :: rest =>
      match language label with
      | Raise e => Raise e
      | Ok l => if option_eqb l (Some "fr-fr") then Ok (Some (str label))
                else first_fr rest
      end
  end.

Definition get_pref_label_fr (graph : Graph) (concept : term) : result string :=
  match first_fr (objects graph concept (SKOS "prefLabel")) with
  | Raise e => Raise e
  | Ok (Some s) => Ok s
  | Ok None => Ok (str_or_None (value graph concept (SKOS "prefLabel")))
  end.

Definition get_creation_date (graph : Graph) (concept : term) : option string :=
  match objects graph concept (DCT "created") with
  | creation_date :: _ => Some (str creation_date)
  | [] => None
  end.

Definition create_tag (uri name : string) (creation_date : option string)
  : M node :=
  t <- time_ms ;;
  ret (Node "tag" uri name None creation_date t None).

(** The [for child in graph.objects(concept, SKOS.narrower)] loop of
    [concept_to_json]; [rec] is the recursive call and [children] the
    list appended to. *)
Fixpoint narrower_loop (rec : term -> M node) (graph : Graph)
    (todo : list term) (children : list node) : M (list node) :=
  match todo with
  | [] => ret children
  | child :: rest =>
      child_obj <- rec child ;;
      let children := children ++ [child_obj] in
      if String.eqb (type child_obj) "category" then
        label <- lift (get_pref_label_fr graph child) ;;
        child_tag <- create_tag (str child) label
                       (get_creation_date graph child) ;;
        narrower_loop rec graph rest (children ++ [child_tag])
      else narrower_loop rec graph rest children
  end.

(** [limit] is the number of nested calls the interpreter still allows. *)
Fixpoint concept_to_json (limit : nat) (graph : Graph) (concept : term)
  : M node :=
  match limit with
  | O => raise RecursionError
  | S deeper =>
      let uri := str concept in
      let obj_id := generate_id uri in
      let creation_date := get_creation_date graph concept in
      name <- lift (get_pref_label_fr graph concept) ;;
      if has_children graph concept then
        children <- narrower_loop (concept_to_json deeper graph) graph
                      (objects graph concept (SKOS "narrower")) [] ;;
        t <- time_ms ;;
        ret (Node "category" obj_id name (Some children) creation_date t
                  (Some true))
      else create_tag uri name creation_date
  end.

(** The [for concept in g.objects(concept_scheme, SKOS.hasTopConcept)]
    loop of [rdf_to_json]. *)
Fixpoint top_concept_loop (limit : nat) (g : Graph) (todo : list term)
    (children : list node) : M (list node) :=
  match todo with
  | [] => ret children
  | concept :: rest =>
      concept_obj <- concept_to_json limit g concept ;;
      let children := children ++ [concept_obj] in
      if String.eqb (type concept_obj) "category" then
        label <- lift (get_pref_label_fr g concept) ;;
        concept_tag <- create_tag (str concept) label
                         (get_creation_date g concept) ;;
        top_concept_loop limit g rest (children ++ [concept_tag])
      else top_concept_loop limit g rest children
  end.

(** [g] is the store once [g.parse(input_file)] has filled it. *)
Definition rdf_to_json (limit : nat) (g : Graph) : M (list node) :=
  match subjects g RDF_type (SKOS "ConceptScheme") with
  | [] => raise IndexError
  | concept_scheme :: _ =>
      let scheme_name := str_or_None (value g concept_scheme (DC "title")) in
      children <- top_concept_loop limit g
                    (objects g concept_scheme (SKOS "hasTopConcept")) [] ;;
      let creation_date := get_creation_date g concept_scheme in
      t <- time_ms ;;
      let root_category :=
        Node "category" (str concept_scheme) scheme_name (Some children)
             creation_date t (Some true) in
      ret [root_category]
  end.

(** What a run of [main] leaves behind: the JSON document written to the
    output path, if any, the line printed and the exit status. *)
Inductive message : Type :=
| Conversion_complete (output : string)
| Error_during_conversion (e : exn).

Record outcome : Type :=
  { written : option (string * list node);
    printed : message;
    exit_status : Z }.

Definition main (limit : nat) (g : Graph) (output : string) : outcome :=
  match rdf_to_json limit g 0 with
  | Ok (json_data, _) =>
      {| written := Some (output, json_data);
         printed := Conversion_complete output;
         exit_status := 0 |}
  | Raise e =>
      {| written := None;
         printed := Error_during_conversion e;
         exit_status := 1 |}
  end.

End Converter.

(* ===================================================================== *)
(** ** Sample graphs                                                     *)
(* ===================================================================== *)

Module Samples.

Definition ex (local : string) : term := URIRef ("http://ex/" ++ local)%string.
Definition plain (s : string) : term := Literal s None None.
Definition tagged (s l : string) : term := Literal s (Some l) None.

(** The scenario of the specification: a scheme "Thesaurus" whose top
    concept "Animals" has the narrower concepts "Dog" and "Mammals", the
    latter with the narrower concept "Cat". *)
Definition thesaurus : Graph :=
  [ (ex "scheme", RDF_type, SKOS "ConceptScheme");
    (ex "scheme", DC "title", plain "Thesaurus");
    (ex "scheme", SKOS "hasTopConcept", ex "animals");
    (ex "animals", SKOS "prefLabel", tagged "Animals" "en");
    (ex "animals", SKOS "prefLabel", tagged "Animaux" "fr-fr");
    (ex "animals", DCT "created", plain "2020-01-01");
    (ex "animals", SKOS "narrower", ex "dog");
    (ex "animals", SKOS "narrower", ex "mammals");
    (ex "dog", SKOS "prefLabel", tagged "Dog" "en");
    (ex "mammals", SKOS "prefLabel", tagged "Mammals" "en");
    (ex "mammals", SKOS "narrower", ex "cat");
    (ex "cat", SKOS "prefLabel", tagged "Cat" "en") ].

Definition ticks (k : nat) : Z := 1700000000000 + Z.of_nat k.

End Samples.

(* ===================================================================== *)
(** ** Reading the results                                               *)
(* ===================================================================== *)

(** Every node of a tree, the tree's own root first. *)
Fixpoint subnodes (n : node) : list node :=
  match n with
  | Node _ _ _ ch _ _ _ =>
      n :: match ch with
           | Some l =>
               (fix each (l : list node) : list node :=
                  match l with
                  | [] => []
                  | x :: r => subnodes x ++ each r
                  end) l
           | None => []
           end
  end.

(** The nodes strictly below the root of a tree. *)
Definition below (root : node) : list node := tl (subnodes root).

Definition is_literal (t : term) : Prop :=
  exists s l d, t = Literal s l d.

Definition tagged_fr (t : term) : Prop :=
  exists s d, t = Literal s (Some "fr-fr") d.

(** The parent-to-child edges the traversal follows. *)
Definition narrower (g : Graph) (a b : term) : Prop :=
  In b (objects g a (SKOS "narrower")).

Definition top_concept (g : Graph) (scheme c : term) : Prop :=
  In c (objects g scheme (SKOS "hasTopConcept")).

(** One hasTopConcept edge, then any number of narrower edges. *)
Definition reachable (g : Graph) (scheme c : term) : Prop :=
  exists t, top_concept g scheme t /\ clos_refl_trans term (narrower g) t c.

Definition acyclic (g : Graph) : Prop :=
  forall c, ~ clos_trans term (narrower g) c c.

Definition literal_labels (g : Graph) : Prop :=
  forall s o, In (s, SKOS "prefLabel", o) g -> is_literal o.

(** A path of narrower edges, as the list of the subjects it visits. *)
Inductive chain (g : Graph) : list term -> Prop :=
| chain_one c : chain g [c]
| chain_cons a b l : narrower g a b -> chain g (b :: l) -> chain g (a :: b :: l).

(** [graph_depth g c d]: the longest narrower path from [c] visits [d]
    subjects. *)
Definition graph_depth (g : Graph) (c : term) (d : nat) : Prop :=
  (exists l, chain g (c :: l) /\ List.length (c :: l) = d) /\
  (forall l, chain g (c :: l) -> List.length (c :: l) <= d).

(** The subject a node stands for: a category carries the hashed id of
    its subject, a tag the subject's own string; both carry its resolved
    label and creation date. *)
Definition represents (g : Graph) (c : term) (n : node) : Prop :=
  ((type n = "category" /\ id n = generate_id (str c)) \/
   (type n = "tag" /\ id n = str c)) /\
  get_pref_label_fr g c = Ok (name n) /\
  creationDate n = get_creation_date g c.

(** The duplication law with the duplicate sharing the id of the
    category it follows. *)
Definition duplicated_with_same_id (C : node) : Prop :=
  forall l i K,
    children C = Some l -> nth_error l i = Some K -> type K = "category" ->
    exists T,
      nth_error l (S i) = Some T /\ type T = "tag" /\
      id T = id K /\ name T = name K /\ creationDate T = creationDate K /\
      children T = None /\ showChildren T = None.

(** The duplication law with the duplicate carrying the own string of the
    subject [c] both nodes stand for, of which the category's id is the
    hash. *)
Definition duplicated_with_uri (g : Graph) (C : node) : Prop :=
  forall l i K,
    children C = Some l -> nth_error l i = Some K -> type K = "category" ->
    exists T c,
      nth_error l (S i) = Some T /\ represents g c K /\ represents g c T /\
      type T = "tag" /\ id T = str c /\ id K = generate_id (str c) /\
      name T = name K /\ creationDate T = creationDate K /\
      children T = None /\ showChildren T = None.

(** A tree with every [creationTimestamp] overwritten. *)
Fixpoint erase_timestamps (n : node) : node :=
  match n with
  | Node t i nm ch d _ sc =>
      Node t i nm
        match ch with
        | Some l =>
            Some ((fix each (l : list node) : list node :=
                     match l with
                     | [] => []
                     | x :: r => erase_timestamps x :: each r
                     end) l)
        | None => None
        end d 0%Z sc
  end.

(** Two runs agree: the same exception, or results related by [R]. *)
Definition agree {A} (R : A -> A -> Prop) (a b : result (A * nat)) : Prop :=
  match a, b with
  | Ok (x, _), Ok (y, _) => R x y
  | Raise e, Raise e' => e = e'
  | _, _ => False
  end.

Definition same_node (x y : node) : Prop :=
  erase_timestamps x = erase_timestamps y.

Definition same_nodes (x y : list node) : Prop :=
  map erase_timestamps x = map erase_timestamps y.

(** Whether the calls nested under the conversion of [c] number at most
    [limit], the call for [c] included. *)
Fixpoint fits (limit : nat) (g : Graph) (c : term) : bool :=
  match limit with
  | O => false
  | S deeper => forallb (fits deeper g) (objects g c (SKOS "narrower"))
  end.

(** The nodes one run of the loop appends, for the subjects [todo]. *)
Inductive appended (clock : nat -> Z) (rec : term -> M node) (g : Graph)
  : list term -> nat -> list node -> nat -> Prop :=
| appended_nil k : appended clock rec g [] k [] k
| appended_tag c rest k n k1 l k' :
    rec c k = Ok (n, k1) ->
    type n <> "category" ->
    appended clock rec g rest k1 l k' ->
    appended clock rec g (c :: rest) k (n :: l) k'
| appended_category c rest k n k1 nm l k' :
    rec c k = Ok (n, k1) ->
    type n = "category" ->
    get_pref_label_fr g c = Ok nm ->
    appended clock rec g rest (S k1) l k' ->
    appended clock rec g (c :: rest) k
      (n :: Node "tag" (str c) nm None (get_creation_date g c) (clock k1) None
         :: l) k'.

Module Cases.
Import Samples.

(** A scheme whose only top concept has neither label nor children. *)
Definition unlabeled : Graph :=
  [ (ex "scheme", RDF_type, SKOS "ConceptScheme");
    (ex "scheme", SKOS "hasTopConcept", ex "dog") ].

(** A scheme whose only top concept is a labelled leaf. *)
Definition single_leaf : Graph :=
  [ (ex "scheme", RDF_type, SKOS "ConceptScheme");
    (ex "scheme", DC "title", plain "Thesaurus");
    (ex "scheme", SKOS "hasTopConcept", ex "dog");
    (ex "dog", SKOS "prefLabel", tagged "Chien" "fr-fr");
    (ex "dog", SKOS "prefLabel", tagged "Dog" "en") ].

(** Concepts and no scheme. *)
Definition no_scheme : Graph :=
  [ (ex "dog", RDF_type, SKOS "Concept");
    (ex "dog", SKOS "prefLabel", tagged "Dog" "en") ].

(** A leaf attached to the scheme by skos:inScheme only, next to a top
    concept. *)
Definition in_scheme_only : Graph :=
  single_leaf ++
  [ (ex "cat", SKOS "inScheme", ex "scheme");
    (ex "cat", SKOS "prefLabel", tagged "Cat" "en") ].

(** Height of the subjects of [thesaurus] above the leaves. *)
Definition rank (t : term) : nat :=
  if term_eqb t (ex "animals") then 2
  else if term_eqb t (ex "mammals") then 1
  else 0.

End Cases.

(* ===================================================================== *)
(** ** Further readings of the results                                   *)
(* ===================================================================== *)

(** The nodes of a tree, each after the nodes below it, children in list
    order. *)
Fixpoint postorder (n : node) : list node :=
  match n with
  | Node _ _ _ ch _ _ _ =>
      match ch with
      | Some l =>
          (fix each (l : list node) : list node :=
             match l with
             | [] => []
             | x :: r => postorder x ++ each r
             end) l
      | None => []
      end ++ [n]
  end.

(** The types and ids of the nodes the loops append for the subjects
    [todo]: a subject with narrower concepts gives a category and then a
    tag, any other subject a tag. *)
Definition expected_children (g : Graph) (todo : list term)
  : list (string * string) :=
  flat_map (fun c =>
              if has_children g c
              then [("category", generate_id (str c)); ("tag", str c)]
              else [("tag", str c)]) todo.

Definition type_and_id (n : node) : string * string := (type n, id n).

(** A clock that never runs backwards. *)
Definition monotone (clock : nat -> Z) : Prop :=
  forall i j, i <= j -> (clock i <= clock j)%Z.

(** The characters of a canonical UUID besides the hyphens. *)
Definition is_hex_char (a : ascii) : Prop :=
  In a (list_ascii_of_string "0123456789abcdef").

Module Edge.
Import Samples.

(** Two concepts, each narrower than the other, under a top concept. *)
Definition cyclic : Graph :=
  [ (ex "scheme", RDF_type, SKOS "ConceptScheme");
    (ex "scheme", SKOS "hasTopConcept", ex "animals");
    (ex "animals", SKOS "prefLabel", tagged "Animaux" "fr-fr");
    (ex "animals", SKOS "narrower", ex "dog");
    (ex "dog", SKOS "prefLabel", tagged "Chien" "fr-fr");
    (ex "dog", SKOS "narrower", ex "animals") ].

(** A top concept whose first preferred label is a resource. *)
Definition resource_label : Graph :=
  [ (ex "scheme", RDF_type, SKOS "ConceptScheme");
    (ex "scheme", SKOS "hasTopConcept", ex "dog");
    (ex "dog", SKOS "prefLabel", ex "dog-label");
    (ex "dog", SKOS "prefLabel", tagged "Chien" "fr-fr") ].

(** A scheme with a creation date and nothing else. *)
Definition empty_scheme : Graph :=
  [ (ex "scheme", RDF_type, SKOS "ConceptScheme");
    (ex "scheme", DCT "created", plain "2019-05-01") ].

(** Concepts tied to their scheme by skos:inScheme and to their parents
    by skos:broader. *)
Definition in_scheme : Graph :=
  [ (ex "scheme", RDF_type, SKOS "ConceptScheme");
    (ex "scheme", DC "title", plain "Thesaurus");
    (ex "animals", SKOS "inScheme", ex "scheme");
    (ex "animals", SKOS "prefLabel", tagged "Animaux" "fr-fr");
    (ex "dog", SKOS "inScheme", ex "scheme");
    (ex "dog", SKOS "prefLabel", tagged "Dog" "en");
    (ex "dog", SKOS "broader", ex "animals");
    (ex "dog", DCT "created", plain "2020-01-01") ].

Definition seconds (k : nat) : Z := 1700000000 + Z.of_nat k.

End Edge.

(** The two shapes a node can have. *)
Definition tag_or_category (n : node) : Prop :=
  (type n = "tag" /\ children n = None /\ showChildren n = None) \/
  (type n = "category" /\ (exists l, children n = Some l) /\
   showChildren n = Some true).

(** The nodes of a run are stamped in the order they are completed. *)
Definition stamped (clock : nat -> Z) (k : nat) (done : list node) (k' : nat)
  : Prop :=
  k' = k + List.length done /\
  map creationTimestamp done = map clock (seq k (List.length done)).

(** The canonical form of a version-5 UUID: 36 characters, hyphens after
    the groups of 8, 4, 4 and 4, the version digit 5, a variant digit
    among 8, 9, a and b, and lowercase hexadecimal digits elsewhere. *)
Definition canonical (s : string) : Prop :=
  String.length s = 36 /\
  (forall i, In i [8; 13; 18; 23] -> String.get i s = Some "-"%char) /\
  String.get 14 s = Some "5"%char /\
  (exists v, String.get 19 s = Some v /\ In v ["8"; "9"; "a"; "b"]%char) /\
  (forall i a, String.get i s = Some a -> ~ In i [8; 13; 18; 23] ->
               is_hex_char a).


(* ===================================================================== *)
(** ** The flat converter ([src/convert.py])                             *)
(* ===================================================================== *)

(** The earlier script lists the concepts of a scheme under the root,
    each with the concepts it names as broader.  It shares the store, the
    clock and the monad of the model above; its dicts may hold [None]
    under "name". *)
Module Flat.

Local Unset Elimination Schemes.
Inductive node : Type :=
  Node { type : string;
         id : string;
         name : option string;
         children : option (list node);
         creationDate : option string;
         creationTimestamp : Z;
         showChildren : option bool }.
Local Set Elimination Schemes.

Section Converter.

(** [clock k] is the value of [int(time.time())] at the [k]-th reading. *)
Variable clock : nat -> Z.

Definition time_s : M Z := fun k => Ok (clock k, S k).

Definition generate_id (uri : term) : string := str uri.

Definition get_creation_date (g : Graph) (concept : term) : option string :=
  match objects g concept (DCT "created") with
  | creation_date :: _ => Some (str creation_date)
  | [] => None
  end.

Definition get_scheme_title (g : Graph) (scheme : term) : string :=
  match objects g scheme (DC "title") with
  | title :: _ => str title
  | [] => "Unknown Title"
  end.

(** The loop returns the first label tagged "fr-fr"; the function returns
    [None] when the loop ends. *)
Definition get_pref_label_fr (g : Graph) (concept : term)
  : result (option string) :=
  first_fr (objects g concept (SKOS "prefLabel")).

(** The [for child in children] loop of [build_hierarchy]; [acc] is
    [category["children"]]. *)
Fixpoint child_tags_loop (g : Graph) (todo : list term) (acc : list node)
  : M (list node) :=
  match todo with
  | [] => ret acc
  | child :: rest =>
      label <- lift (get_pref_label_fr g child) ;;
      t <- time_s ;;
      let child_tags :=
        Node "tag" (generate_id child) label None
             (get_creation_date g child) t None in
      child_tags_loop g rest (acc ++ [child_tags])
  end.

(** The [for concept in g.subjects(SKOS.inScheme, scheme)] loop; [acc] is
    [root["children"]]. *)
Fixpoint concepts_loop (g : Graph) (todo : list term) (acc : list node)
  : M (list node) :=
  match todo with
  | [] => ret acc
  | concept :: rest =>
      label <- lift (get_pref_label_fr g concept) ;;
      t <- time_s ;;
      match objects g concept (SKOS "broader") with
      | [] =>
          concepts_loop g rest
            (acc ++ [Node "tag" (generate_id concept) label None
                          (get_creation_date g concept) t None])
      | children =>
          tags <- child_tags_loop g children [] ;;
          concepts_loop g rest
            (acc ++ [Node "tag" (generate_id concept) label (Some tags)
                          (get_creation_date g concept) t None])
      end
  end.

Definition build_hierarchy (g : Graph) (scheme : term) : M node :=
  t <- time_s ;;
  children <- concepts_loop g (subjects g (SKOS "inScheme") scheme) [] ;;
  ret (Node "category" (generate_id scheme) (Some (get_scheme_title g scheme))
            (Some children) (get_creation_date g scheme) t (Some true)).

(** An exception nothing catches ends the run: the one raised under
    [build_hierarchy], or the unbound [hierarchy] when the loop over the
    schemes ran no iteration. *)
Inductive uncaught : Type :=
| Raised (e : exn)
| UnboundLocalError.

Record outcome : Type :=
  { written : option (string * list node);
    traceback : option uncaught;
    exit_status : Z }.

(** [g] is the store once [g.parse(args.rdf_file, format="xml")] has
    filled it. *)
Definition main (g : Graph) (output_file : string) : outcome :=
  match subjects g RDF_type (SKOS "ConceptScheme") with
  | [] =>
      {| written := None;
         traceback := Some UnboundLocalError;
         exit_status := 1 |}
  | scheme :: _ =>
      match build_hierarchy g scheme 0 with
      | Ok (hierarchy, _) =>
          {| written := Some (output_file, [hierarchy]);
             traceback := None;
             exit_status := 0 |}
      | Raise e =>
          {| written := None;
             traceback := Some (Raised e);
             exit_status := 1 |}
      end
  end.

End Converter.

(** The node of the flat tree for the subject [c]: its own string as id,
    its "fr-fr" label or [None] as name, its creation date, and type
    "tag". *)
Definition stands_for (g : Graph) (c : term) (n : node) : Prop :=
  type n = "tag" /\ id n = str c /\
  get_pref_label_fr g c = Ok (name n) /\
  creationDate n = get_creation_date g c /\
  showChildren n = None.

End Flat.

(** The node the flat converter builds for a concept, by its broader
    objects: none gives a node without children, some give one tag each. *)
Definition Flat_concept_node (g : Graph) (c : term) (n : Flat.node) : Prop :=
  Flat.stands_for g c n /\
  match objects g c (SKOS "broader") with
  | [] => Flat.children n = None
  | parents =>
      exists tags,
        Flat.children n = Some tags /\
        Forall2 (fun b m => Flat.stands_for g b m /\ Flat.children m = None)
                parents tags
  end.

(** The number of clock readings of [Flat.build_hierarchy]: one for the
    root, one for each concept of the scheme and one for each of their
    broader objects. *)
Definition Flat_readings (g : Graph) (scheme : term) : nat :=
  1 + List.length (subjects g (SKOS "inScheme") scheme) +
  List.length (flat_map (fun c => objects g c (SKOS "broader"))
                        (subjects g (SKOS "inScheme") scheme)).

(* ===================================================================== *)
(** ** Test vectors of the hash                                          *)
(* ===================================================================== *)

(** FIPS 180 test vector for SHA-1. *)
Example sha1_abc :
  Uuid.hex (Uuid.sha1 (Uuid.octets "abc"))
  = "a9993e364706816aba3e25717850c26c9cd0d89d".
Proof. vm_compute. reflexivity. Qed.

(** Values printed by [uuid.uuid5(uuid.NAMESPACE_URL, ...)], the second
    for a name that spans two blocks. *)
Example generate_id_short :
  generate_id "http://ex/a" = "4b3c8061-e71c-507a-a45f-3c21c36a92a1".
Proof. vm_compute. reflexivity. Qed.

Example generate_id_long :
  generate_id
    "http://data.culture.fr/thesaurus/resource/ark:/67717/T96-1234567"
  = "181f7d78-9783-586b-93a5-8afa1121b8fc".
Proof. vm_compute. reflexivity. Qed.

(** The scenario of the specification, run. *)
Example thesaurus_run :
  rdf_to_json Samples.ticks 10 Samples.thesaurus 0 =
  Ok ([Node "category" "http://ex/scheme" "Thesaurus"
         (Some
            [Node "category" "75a233ac-2da5-5319-9962-0fb529ebcf24" "Animaux"
               (Some
                  [Node "tag" "http://ex/dog" "Dog" None None
                        1700000000000 None;
                   Node "category" "4aaddfaf-788f-5d97-a99c-3d48a25b6281"
                        "Mammals"
                        (Some [Node "tag" "http://ex/cat" "Cat" None None
                                    1700000000001 None])
                        None 1700000000002 (Some true);
                   Node "tag" "http://ex/mammals" "Mammals" None None
                        1700000000003 None])
               (Some "2020-01-01") 1700000000004 (Some true);
             Node "tag" "http://ex/animals" "Animaux" None
                  (Some "2020-01-01") 1700000000005 None])
         None 1700000000006 (Some true)], 7).
Proof. vm_compute. reflexivity. Qed.

(* ===================================================================== *)
(** ** Basic facts                                                       *)
(* ===================================================================== *)

Lemma option_eqb_eq a b : option_eqb a b = true -> a = b.
Proof.
  destruct a, b; simpl; try discriminate; auto.
  intros H. apply String.eqb_eq in H. now subst.
Qed.

Lemma term_eqb_eq a b : term_eqb a b = true -> a = b.
Proof.
  destruct a, b; simpl; try discriminate; intros H.
  - apply String.eqb_eq in H. now subst.
  - apply String.eqb_eq in H. now subst.
  - apply andb_prop in H. destruct H as [H Hd].
    apply andb_prop in H. destruct H as [Hs Hl].
    apply String.eqb_eq in Hs. apply option_eqb_eq in Hl.
    apply option_eqb_eq in Hd. now subst.
Qed.

Lemma option_eqb_refl a : option_eqb a a = true.
Proof. destruct a; simpl; auto. apply String.eqb_refl. Qed.

Lemma term_eqb_refl a : term_eqb a a = true.
Proof.
  destruct a; simpl; rewrite ?String.eqb_refl, ?option_eqb_refl; auto.
Qed.

Lemma in_objects g s p o : In o (objects g s p) <-> In (s, p, o) g.
Proof.
  unfold objects. rewrite in_map_iff. split.
  - intros [[[s' p'] o'] [Ho Hin]]. simpl in Ho. subst o'.
    apply filter_In in Hin. destruct Hin as [Hin Hb]. simpl in Hb.
    apply andb_prop in Hb. destruct Hb as [Hs Hp].
    apply term_eqb_eq in Hs. apply term_eqb_eq in Hp. now subst.
  - intros Hin. exists (s, p, o). split; auto.
    apply filter_In. split; auto. simpl. now rewrite !term_eqb_refl.
Qed.

Lemma in_subjects g p o s : In s (subjects g p o) <-> In (s, p, o) g.
Proof.
  unfold subjects. rewrite in_map_iff. split.
  - intros [[[s' p'] o'] [Hs Hin]]. simpl in Hs. subst s'.
    apply filter_In in Hin. destruct Hin as [Hin Hb]. simpl in Hb.
    apply andb_prop in Hb. destruct Hb as [Hp Ho].
    apply term_eqb_eq in Hp. apply term_eqb_eq in Ho. now subst.
  - intros Hin. exists (s, p, o). split; auto.
    apply filter_In. split; auto. simpl. now rewrite !term_eqb_refl.
Qed.

Lemma subnodes_eq n :
  subnodes n = n :: match children n with
                    | Some l => flat_map subnodes l
                    | None => []
                    end.
Proof.
  destruct n as [t i nm ch d ts sc]. reflexivity.
Qed.

Lemma has_children_false g c :
  has_children g c = false <-> objects g c (SKOS "narrower") = [].
Proof.
  unfold has_children. destruct (objects g c (SKOS "narrower")); simpl.
  - tauto.
  - split; discriminate.
Qed.

(** *** Inversion of monadic runs *)

Lemma bind_Ok {A B} (c : M A) (f : A -> M B) k r :
  bind c f k = Ok r -> exists a k1, c k = Ok (a, k1) /\ f a k1 = Ok r.
Proof.
  unfold bind. destruct (c k) as [[a k1]|e]; try discriminate. eauto.
Qed.

Lemma lift_Ok {A} (r : result A) k a k' :
  lift r k = Ok (a, k') -> r = Ok a /\ k' = k.
Proof. unfold lift. destruct r; try discriminate. intros H. now inversion H. Qed.

Lemma create_tag_run clock uri nm d k :
  create_tag clock uri nm d k = Ok (Node "tag" uri nm None d (clock k) None, S k).
Proof. reflexivity. Qed.

(** What a successful call of [concept_to_json] returns. *)
Lemma concept_to_json_inv clock limit g c k n k' :
  concept_to_json clock limit g c k = Ok (n, k') ->
  exists deeper nm,
    limit = S deeper /\ get_pref_label_fr g c = Ok nm /\
    ((has_children g c = false /\
      n = Node "tag" (str c) nm None (get_creation_date g c) (clock k) None /\
      k' = S k) \/
     (has_children g c = true /\
      exists ch k1,
        narrower_loop clock (concept_to_json clock deeper g) g
          (objects g c (SKOS "narrower")) [] k = Ok (ch, k1) /\
        n = Node "category" (generate_id (str c)) nm (Some ch)
              (get_creation_date g c) (clock k1) (Some true) /\
        k' = S k1)).
Proof.
  destruct limit as [|deeper]; simpl; [discriminate|].
  intros H. exists deeper.
  apply bind_Ok in H. destruct H as (nm & k0 & Hnm & H).
  apply lift_Ok in Hnm. destruct Hnm as [Hnm ->].
  exists nm. split; auto. split; auto.
  destruct (has_children g c) eqn:Hc.
  - right. split; auto.
    apply bind_Ok in H. destruct H as (ch & k1 & Hloop & H).
    exists ch, k1. split; auto.
    unfold bind, time_ms, ret in H. inversion H. auto.
  - left. split; auto. rewrite create_tag_run in H. inversion H. auto.
Qed.

(** The two loops are the same loop. *)
Lemma top_concept_loop_eq clock limit g todo :
  forall acc k,
    top_concept_loop clock limit g todo acc k =
    narrower_loop clock (concept_to_json clock limit g) g todo acc k.
Proof.
  induction todo as [|c rest IH]; intros acc k; simpl; auto.
  unfold bind.
  destruct (concept_to_json clock limit g c k) as [[n k1]|e]; auto.
  destruct (String.eqb (type n) "category"); auto.
  destruct (lift (get_pref_label_fr g c) k1) as [[nm k2]|e]; auto.
  simpl. apply IH.
Qed.

Lemma narrower_loop_appended clock rec g todo :
  forall acc k out k',
    narrower_loop clock rec g todo acc k = Ok (out, k') ->
    exists l, out = acc ++ l /\ appended clock rec g todo k l k'.
Proof.
  induction todo as [|c rest IH]; intros acc k out k' H; simpl in H.
  - inversion H. subst. exists []. split; [now rewrite app_nil_r | constructor].
  - apply bind_Ok in H. destruct H as (n & k1 & Hn & H).
    destruct (String.eqb (type n) "category") eqn:Ht.
    + apply String.eqb_eq in Ht.
      apply bind_Ok in H. destruct H as (nm & k2 & Hnm & H).
      apply lift_Ok in Hnm. destruct Hnm as [Hnm ->].
      apply bind_Ok in H. destruct H as (tg & k3 & Htg & H).
      rewrite create_tag_run in Htg. inversion Htg. subst tg k3.
      apply IH in H. destruct H as (l & -> & Hl).
      eexists. split; [|eapply appended_category; eauto].
      now rewrite <- !app_assoc.
    + apply String.eqb_neq in Ht.
      apply IH in H. destruct H as (l & -> & Hl).
      eexists. split; [|eapply appended_tag; eauto].
      now rewrite <- !app_assoc.
Qed.

(* ===================================================================== *)
(** ** Label resolution                                                  *)
(* ===================================================================== *)

Lemma option_eqb_fr l : option_eqb l (Some "fr-fr") = true <-> l = Some "fr-fr".
Proof.
  split.
  - apply option_eqb_eq.
  - intros ->. apply option_eqb_refl.
Qed.

Lemma first_fr_none labels :
  Forall is_literal labels ->
  (forall l, In l labels -> ~ tagged_fr l) ->
  first_fr labels = Ok None.
Proof.
  induction 1 as [|x r Hx Hr IH]; intros Hno; simpl; auto.
  destruct Hx as (s & l & d & ->). simpl.
  destruct (option_eqb l (Some "fr-fr")) eqn:E.
  - apply option_eqb_fr in E. subst l.
    exfalso. apply (Hno (Literal s (Some "fr-fr") d)); [now left|].
    now exists s, d.
  - apply IH. intros y Hy. apply Hno. now right.
Qed.

Lemma first_fr_found labels :
  Forall is_literal labels ->
  (exists l, In l labels /\ tagged_fr l) ->
  exists before l after,
    labels = before ++ l :: after /\ tagged_fr l /\
    (forall x, In x before -> ~ tagged_fr x) /\
    first_fr labels = Ok (Some (str l)).
Proof.
  induction 1 as [|x r Hx Hr IH]; intros (l0 & Hin & Ht).
  - destruct Hin.
  - destruct Hx as (s & l & d & ->). simpl.
    destruct (option_eqb l (Some "fr-fr")) eqn:E.
    + apply option_eqb_fr in E. subst l.
      exists [], (Literal s (Some "fr-fr") d), r. simpl.
      split; [reflexivity|]. split; [now exists s, d|].
      split; [intros x []|reflexivity].
    + destruct Hin as [<-|Hin].
      * destruct Ht as (s' & d' & Heq). inversion Heq. subst.
        simpl in E. discriminate.
      * destruct IH as (before & l1 & after & -> & Ht1 & Hb & Hf); eauto.
        exists (Literal s l d :: before), l1, after.
        split; [reflexivity|]. split; [exact Ht1|]. split; [|exact Hf].
        intros x [<-|Hx] (s' & d' & Heq); [|apply (Hb x Hx); now exists s', d'].
        inversion Heq. subst. simpl in E. discriminate.
Qed.

Lemma first_fr_total labels :
  Forall is_literal labels -> exists r, first_fr labels = Ok r.
Proof.
  induction 1 as [|x r Hx Hr IH]; simpl; eauto.
  destruct Hx as (s & l & d & ->). simpl.
  destruct (option_eqb l (Some "fr-fr")); eauto.
Qed.

Lemma get_pref_label_fr_total g c :
  Forall is_literal (objects g c (SKOS "prefLabel")) ->
  exists nm, get_pref_label_fr g c = Ok nm.
Proof.
  intros H. unfold get_pref_label_fr.
  destruct (first_fr_total _ H) as [[s|] ->]; eauto.
Qed.

Lemma literal_labels_objects g c :
  literal_labels g -> Forall is_literal (objects g c (SKOS "prefLabel")).
Proof.
  intros H. apply Forall_forall. intros o Ho.
  apply in_objects in Ho. eauto.
Qed.

Lemma concept_to_json_name clock limit g c k n k' :
  concept_to_json clock limit g c k = Ok (n, k') ->
  get_pref_label_fr g c = Ok (name n).
Proof.
  intros H. apply concept_to_json_inv in H.
  destruct H as (deeper & nm & _ & Hnm & [(_ & -> & _)|(_ & ch & k1 & _ & -> & _)]);
    exact Hnm.
Qed.

(** C4.  A concept whose preferred labels include one tagged "fr-fr" is
    named by the first such label; a concept with preferred labels of
    which none is tagged "fr-fr" is named by one of them, the one the
    generic lookup [value] returns; and the name of the node emitted for
    a concept is this resolved label. *)
Theorem label_fallback g c :
  Forall is_literal (objects g c (SKOS "prefLabel")) ->
  ((exists l, In l (objects g c (SKOS "prefLabel")) /\ tagged_fr l) ->
   exists before l after,
     objects g c (SKOS "prefLabel") = before ++ l :: after /\
     tagged_fr l /\ (forall x, In x before -> ~ tagged_fr x) /\
     get_pref_label_fr g c = Ok (str l)) /\
  (objects g c (SKOS "prefLabel") <> [] ->
   (forall l, In l (objects g c (SKOS "prefLabel")) -> ~ tagged_fr l) ->
   exists l,
     In l (objects g c (SKOS "prefLabel")) /\
     value g c (SKOS "prefLabel") = Some l /\
     get_pref_label_fr g c = Ok (str l)) /\
  (forall clock limit k n k',
     concept_to_json clock limit g c k = Ok (n, k') ->
     get_pref_label_fr g c = Ok (name n)).
Proof.
  intros Hlit. split; [|split].
  - intros Hex.
    destruct (first_fr_found _ Hlit Hex) as (before & l & after & E & Ht & Hb & Hf).
    exists before, l, after.
    split; [exact E|]. split; [exact Ht|]. split; [exact Hb|].
    unfold get_pref_label_fr. now rewrite Hf.
  - intros Hne Hno. unfold get_pref_label_fr, value.
    rewrite (first_fr_none _ Hlit Hno).
    destruct (objects g c (SKOS "prefLabel")) as [|l r]; [now elim Hne|].
    exists l. simpl. auto.
  - intros clock limit k n k'. apply concept_to_json_name.
Qed.

Lemma label_fallback_witness :
  (exists before l after,
     objects Samples.thesaurus (Samples.ex "animals") (SKOS "prefLabel")
       = before ++ l :: after /\
     tagged_fr l /\ (forall x, In x before -> ~ tagged_fr x) /\
     get_pref_label_fr Samples.thesaurus (Samples.ex "animals") = Ok (str l)) /\
  (exists l,
     In l (objects Samples.thesaurus (Samples.ex "dog") (SKOS "prefLabel")) /\
     value Samples.thesaurus (Samples.ex "dog") (SKOS "prefLabel") = Some l /\
     get_pref_label_fr Samples.thesaurus (Samples.ex "dog") = Ok (str l)).
Proof.
  split.
  - refine (proj1 (label_fallback Samples.thesaurus (Samples.ex "animals") _) _).
    + vm_compute. repeat constructor; do 3 eexists; reflexivity.
    + exists (Samples.tagged "Animaux" "fr-fr"). split.
      * vm_compute. auto.
      * eexists _, _. reflexivity.
  - refine (proj1 (proj2 (label_fallback Samples.thesaurus (Samples.ex "dog") _))
              _ _).
    + vm_compute. repeat constructor; do 3 eexists; reflexivity.
    + vm_compute. discriminate.
    + vm_compute. intros l [<-|[]] (s & d & E). discriminate E.
Defined.

(* ===================================================================== *)
(** ** Failures                                                          *)
(* ===================================================================== *)

Lemma no_scheme_subjects g :
  (forall s, ~ In (s, RDF_type, SKOS "ConceptScheme") g) ->
  subjects g RDF_type (SKOS "ConceptScheme") = [].
Proof.
  intros H. destruct (subjects g RDF_type (SKOS "ConceptScheme")) as [|s r] eqn:E; auto.
  exfalso. apply (H s). apply in_subjects. rewrite E. now left.
Qed.

(** C5.  On a graph with no subject of type ConceptScheme the conversion
    raises the exception of the failed lookup of the scheme (IndexError,
    the missing-scheme error), and [main] reports it, exits with status 1
    and writes no output. *)
Theorem missing_scheme_fails clock limit g output :
  (forall s, ~ In (s, RDF_type, SKOS "ConceptScheme") g) ->
  (forall k, rdf_to_json clock limit g k = Raise IndexError) /\
  main clock limit g output =
    {| written := None;
       printed := Error_during_conversion IndexError;
       exit_status := 1 |}.
Proof.
  intros H. apply no_scheme_subjects in H.
  assert (Hfail : forall k, rdf_to_json clock limit g k = Raise IndexError).
  { intros k. unfold rdf_to_json. now rewrite H. }
  split; auto. unfold main. now rewrite Hfail.
Qed.

Lemma missing_scheme_fails_witness :
  (forall k, rdf_to_json Samples.ticks 10 Cases.no_scheme k = Raise IndexError) /\
  main Samples.ticks 10 Cases.no_scheme "out.json" =
    {| written := None;
       printed := Error_during_conversion IndexError;
       exit_status := 1 |}.
Proof.
  apply (missing_scheme_fails Samples.ticks 10 Cases.no_scheme "out.json").
  intros s H. vm_compute in H.
  destruct H as [H|[H|[]]]; discriminate H.
Defined.

(** C3, as the code has it.  A concept without a preferred label raises
    nothing: its label resolves to the string "None", every node emitted
    for it bears that name, and a childless one is converted to a tag. *)
Theorem unlabeled_concept_is_named_None g c :
  objects g c (SKOS "prefLabel") = [] ->
  get_pref_label_fr g c = Ok "None" /\
  (forall clock limit k n k',
     concept_to_json clock limit g c k = Ok (n, k') -> name n = "None") /\
  (has_children g c = false ->
   forall clock limit k,
     concept_to_json clock (S limit) g c k =
       Ok (Node "tag" (str c) "None" None (get_creation_date g c)
                (clock k) None, S k)).
Proof.
  intros H.
  assert (Hnm : get_pref_label_fr g c = Ok "None").
  { unfold get_pref_label_fr, value. now rewrite H. }
  split; [exact Hnm|]. split.
  - intros clock limit k n k' Hrun.
    apply concept_to_json_name in Hrun. rewrite Hnm in Hrun. now inversion Hrun.
  - intros Hc clock limit k. simpl. unfold bind. rewrite Hnm. simpl.
    now rewrite Hc.
Qed.

Lemma unlabeled_concept_is_named_None_witness :
  get_pref_label_fr Cases.unlabeled (Samples.ex "dog") = Ok "None" /\
  (forall clock limit k n k',
     concept_to_json clock limit Cases.unlabeled (Samples.ex "dog") k
       = Ok (n, k') -> name n = "None") /\
  (has_children Cases.unlabeled (Samples.ex "dog") = false ->
   forall clock limit k,
     concept_to_json clock (S limit) Cases.unlabeled (Samples.ex "dog") k =
       Ok (Node "tag" (str (Samples.ex "dog")) "None" None
                (get_creation_date Cases.unlabeled (Samples.ex "dog"))
                (clock k) None, S k)).
Proof.
  apply (unlabeled_concept_is_named_None Cases.unlabeled (Samples.ex "dog")).
  vm_compute. reflexivity.
Defined.

(** The claim C3 fails here: the top concept of [Cases.unlabeled] has no
    preferred label, it is visited, and the conversion returns a tree in
    which it is named "None". *)
Lemma unlabeled_concept_does_not_fail :
  objects Cases.unlabeled (Samples.ex "dog") (SKOS "prefLabel") = [] /\
  objects Cases.unlabeled (Samples.ex "scheme") (SKOS "hasTopConcept")
    = [Samples.ex "dog"] /\
  rdf_to_json Samples.ticks 10 Cases.unlabeled 0 =
    Ok ([Node "category" "http://ex/scheme" "None"
           (Some [Node "tag" "http://ex/dog" "None" None None
                       1700000000000 None])
           None 1700000000001 (Some true)], 2) /\
  ~ (exists e, rdf_to_json Samples.ticks 10 Cases.unlabeled 0 = Raise e).
Proof.
  split; [reflexivity|]. split; [reflexivity|]. split; [reflexivity|].
  intros [e H]. vm_compute in H. discriminate H.
Qed.

(* ===================================================================== *)
(** ** Leaves                                                            *)
(* ===================================================================== *)

(** C7.  A concept with no object under the narrower relation is
    converted to a node of type "tag" that has neither a [children] nor a
    [showChildren] key; the conversion of such a concept succeeds as soon
    as its preferred labels are literals. *)
Theorem leaf_is_plain_tag clock limit g c k :
  objects g c (SKOS "narrower") = [] ->
  (forall n k',
     concept_to_json clock limit g c k = Ok (n, k') ->
     type n = "tag" /\ children n = None /\ showChildren n = None) /\
  (Forall is_literal (objects g c (SKOS "prefLabel")) ->
   exists n,
     concept_to_json clock (S limit) g c k = Ok (n, S k) /\
     type n = "tag" /\ children n = None /\ showChildren n = None).
Proof.
  intros Hleaf. apply has_children_false in Hleaf. split.
  - intros n k' Hrun. apply concept_to_json_inv in Hrun.
    destruct Hrun as (deeper & nm & _ & _ & [(_ & -> & _)|(Hc & _)]).
    + simpl. auto.
    + rewrite Hleaf in Hc. discriminate.
  - intros Hlit. destruct (get_pref_label_fr_total g c Hlit) as [nm Hnm].
    eexists. split.
    + simpl. unfold bind. rewrite Hnm. simpl. rewrite Hleaf. reflexivity.
    + simpl. auto.
Qed.

Lemma leaf_is_plain_tag_witness :
  exists n,
    concept_to_json Samples.ticks 1 Samples.thesaurus (Samples.ex "cat") 0
      = Ok (n, 1) /\
    type n = "tag" /\ children n = None /\ showChildren n = None.
Proof.
  refine (proj2 (leaf_is_plain_tag Samples.ticks 0 Samples.thesaurus
                   (Samples.ex "cat") 0 _) _).
  - vm_compute. reflexivity.
  - vm_compute. repeat constructor. do 3 eexists. reflexivity.
Defined.

(* ===================================================================== *)
(** ** Two runs                                                          *)
(* ===================================================================== *)

Lemma erase_timestamps_eq t i nm ch d ts sc :
  erase_timestamps (Node t i nm ch d ts sc) =
  Node t i nm (option_map (map erase_timestamps) ch) d 0%Z sc.
Proof. destruct ch; reflexivity. Qed.

Lemma same_node_type x y : same_node x y -> type x = type y.
Proof.
  unfold same_node. destruct x, y. rewrite !erase_timestamps_eq.
  intros H. now inversion H.
Qed.

Lemma same_nodes_app a b x y :
  same_nodes a b -> same_nodes x y -> same_nodes (a ++ x) (b ++ y).
Proof. unfold same_nodes. intros H1 H2. now rewrite !map_app, H1, H2. Qed.

Section TwoRuns.

Variables clock1 clock2 : nat -> Z.

Lemma narrower_loop_agree rec1 rec2 g todo :
  (forall c k1 k2, agree same_node (rec1 c k1) (rec2 c k2)) ->
  forall acc1 acc2 k1 k2,
    same_nodes acc1 acc2 ->
    agree same_nodes (narrower_loop clock1 rec1 g todo acc1 k1)
                     (narrower_loop clock2 rec2 g todo acc2 k2).
Proof.
  intros Hrec. induction todo as [|c rest IH]; intros acc1 acc2 k1 k2 Hacc.
  - simpl. exact Hacc.
  - simpl. unfold bind.
    specialize (Hrec c k1 k2).
    destruct (rec1 c k1) as [[n1 j1]|e1], (rec2 c k2) as [[n2 j2]|e2];
      simpl in Hrec; try contradiction; [|exact Hrec].
    rewrite <- (same_node_type _ _ Hrec).
    assert (Hacc' : same_nodes (acc1 ++ [n1]) (acc2 ++ [n2])).
    { apply same_nodes_app; auto. unfold same_nodes. simpl. now f_equal. }
    destruct (String.eqb (type n1) "category").
    + unfold lift.
      destruct (get_pref_label_fr g c) as [nm|e]; simpl; auto.
      apply IH. apply same_nodes_app; [exact Hacc'|reflexivity].
    + now apply IH.
Qed.

Lemma concept_to_json_agree limit g :
  forall c k1 k2,
    agree same_node (concept_to_json clock1 limit g c k1)
                    (concept_to_json clock2 limit g c k2).
Proof.
  induction limit as [|deeper IH]; intros c k1 k2; simpl.
  - reflexivity.
  - unfold bind, lift.
    destruct (get_pref_label_fr g c) as [nm|e]; simpl; auto.
    destruct (has_children g c).
    + pose proof (narrower_loop_agree _ _ g
                    (objects g c (SKOS "narrower")) IH [] [] k1 k2 eq_refl) as H.
      destruct (narrower_loop clock1 _ g _ [] k1) as [[ch1 j1]|e1],
               (narrower_loop clock2 _ g _ [] k2) as [[ch2 j2]|e2];
        simpl in H; try contradiction; auto.
      simpl. unfold same_node. rewrite !erase_timestamps_eq. simpl.
      now rewrite H.
    + simpl. reflexivity.
Qed.

End TwoRuns.

(** C8.  Two runs of the conversion on the same graph, whatever the clock
    shows during each, either raise the same exception or return trees
    that are equal once every [creationTimestamp] is erased. *)
Theorem two_runs_differ_in_timestamps_only clock1 clock2 limit g k1 k2 :
  agree same_nodes (rdf_to_json clock1 limit g k1)
                   (rdf_to_json clock2 limit g k2).
Proof.
  unfold rdf_to_json.
  destruct (subjects g RDF_type (SKOS "ConceptScheme")) as [|scheme rest].
  - reflexivity.
  - unfold bind.
    rewrite !top_concept_loop_eq.
    pose proof (narrower_loop_agree clock1 clock2 _ _ g
                  (objects g scheme (SKOS "hasTopConcept"))
                  (concept_to_json_agree clock1 clock2 limit g)
                  [] [] k1 k2 eq_refl) as H.
    destruct (narrower_loop clock1 _ g _ [] k1) as [[ch1 j1]|e1],
             (narrower_loop clock2 _ g _ [] k2) as [[ch2 j2]|e2];
      simpl in H; try contradiction; auto.
    simpl. unfold same_nodes. simpl. unfold same_nodes in H.
    change (fix each (l : list node) : list node :=
              match l with
              | [] => []
              | x :: r => erase_timestamps x :: each r
              end) with (map erase_timestamps).
    now rewrite H.
Qed.

(* ===================================================================== *)
(** ** The shape of the tree                                             *)
(* ===================================================================== *)

Lemma represents_root clock limit g c k n k' :
  concept_to_json clock limit g c k = Ok (n, k') -> represents g c n.
Proof.
  intros H. apply concept_to_json_inv in H.
  destruct H as (deeper & nm & _ & Hnm & [(_ & -> & _)|(_ & ch & k1 & _ & -> & _)]);
    unfold represents; simpl; auto.
Qed.

Lemma represents_category_id g c n :
  represents g c n -> type n = "category" -> id n = generate_id (str c).
Proof.
  intros [[[_ H]|[Ht _]] _] Hc; auto. rewrite Hc in Ht. discriminate.
Qed.

Section Loop.

Variable clock : nat -> Z.
Variable rec : term -> M node.
Variable g : Graph.

Hypothesis rec_represents :
  forall c k n k1, rec c k = Ok (n, k1) -> represents g c n.

(** A category among the appended nodes is followed by its tag. *)
Lemma appended_duplicates todo k l k' :
  appended clock rec g todo k l k' ->
  forall i K,
    nth_error l i = Some K -> type K = "category" ->
    exists T c,
      nth_error l (S i) = Some T /\ represents g c K /\ represents g c T /\
      type T = "tag" /\ id T = str c /\ id K = generate_id (str c) /\
      name T = name K /\ creationDate T = creationDate K /\
      children T = None /\ showChildren T = None.
Proof.
  induction 1 as [k|c rest k n k1 l k' Hn Ht Hl IH
                    |c rest k n k1 nm l k' Hn Ht Hnm Hl IH]; intros i K Hi HK.
  - destruct i; discriminate.
  - destruct i as [|i]; simpl in Hi.
    + inversion Hi. subst K. contradiction.
    + apply IH; auto.
  - pose proof (rec_represents _ _ _ _ Hn) as Hr.
    destruct i as [|[|i]]; simpl in Hi.
    + inversion Hi. subst K.
      pose proof (represents_category_id _ _ _ Hr Ht) as Hid.
      pose proof Hr as (_ & Hname & Hdate).
      rewrite Hnm in Hname. inversion Hname as [Hname'].
      eexists _, c. simpl. split; [reflexivity|]. split; [exact Hr|].
      split; [unfold represents; simpl; rewrite Hnm; auto|].
      repeat split; auto.
    + inversion Hi. subst K. discriminate.
    + apply IH; auto.
Qed.

Variable P : node -> Prop.

Hypothesis P_tag : forall uri nm d ts, P (Node "tag" uri nm None d ts None).

Hypothesis rec_P :
  forall c k n k1 m, rec c k = Ok (n, k1) -> In m (subnodes n) -> P m.

(** A property of every node the recursive calls return, and of every
    tag, holds of every node under the appended ones. *)
Lemma appended_all todo k l k' :
  appended clock rec g todo k l k' ->
  forall m, In m (flat_map subnodes l) -> P m.
Proof.
  induction 1 as [k|c rest k n k1 l k' Hn Ht Hl IH
                    |c rest k n k1 nm l k' Hn Ht Hnm Hl IH]; intros m Hm.
  - destruct Hm.
  - simpl in Hm. apply in_app_or in Hm. destruct Hm as [Hm|Hm]; eauto.
  - simpl in Hm. apply in_app_or in Hm. destruct Hm as [Hm|[<-|Hm]]; eauto.
Qed.

End Loop.

(** Where the nodes under the appended ones come from. *)
Lemma appended_origin clock rec g todo k l k' :
  (forall c k n k1 m, rec c k = Ok (n, k1) -> In m (subnodes n) ->
     exists d, clos_refl_trans term (narrower g) c d /\ represents g d m) ->
  appended clock rec g todo k l k' ->
  forall m, In m (flat_map subnodes l) ->
    exists c d, In c todo /\ clos_refl_trans term (narrower g) c d /\
                represents g d m.
Proof.
  intros Hrec.
  induction 1 as [k|c rest k n k1 l k' Hn Ht Hl IH
                    |c rest k n k1 nm l k' Hn Ht Hnm Hl IH]; intros m Hm.
  - destruct Hm.
  - simpl in Hm. apply in_app_or in Hm. destruct Hm as [Hm|Hm].
    + destruct (Hrec _ _ _ _ _ Hn Hm) as (d & Hd & Hr).
      exists c, d. simpl. auto.
    + destruct (IH _ Hm) as (c' & d & Hc & Hd & Hr).
      exists c', d. simpl. auto.
  - simpl in Hm. apply in_app_or in Hm. destruct Hm as [Hm|[<-|Hm]].
    + destruct (Hrec _ _ _ _ _ Hn Hm) as (d & Hd & Hr).
      exists c, d. simpl. auto.
    + exists c, c. simpl. split; auto. split; [apply rt_refl|].
      unfold represents. simpl. auto.
    + destruct (IH _ Hm) as (c' & d & Hc & Hd & Hr).
      exists c', d. simpl. auto.
Qed.

(** Every node of the tree converted from [c] stands for [c] or for a
    subject below it. *)
Lemma concept_to_json_origin clock limit g :
  forall c k n k1 m,
    concept_to_json clock limit g c k = Ok (n, k1) -> In m (subnodes n) ->
    exists d, clos_refl_trans term (narrower g) c d /\ represents g d m.
Proof.
  induction limit as [|deeper IH]; intros c k n k1 m Hrun Hm.
  - discriminate.
  - pose proof (represents_root _ _ _ _ _ _ _ Hrun) as Hroot.
    apply concept_to_json_inv in Hrun.
    destruct Hrun as (deeper' & nm & E & Hnm & Hcase). inversion E. subst deeper'.
    destruct Hcase as [(_ & -> & _)|(_ & ch & k2 & Hloop & -> & _)].
    + destruct Hm as [<-|[]]. exists c. split; [apply rt_refl|exact Hroot].
    + rewrite subnodes_eq in Hm. simpl in Hm. destruct Hm as [<-|Hm].
      * exists c. split; [apply rt_refl|exact Hroot].
      * apply narrower_loop_appended in Hloop.
        destruct Hloop as (l & -> & Happ). simpl in Hm.
        destruct (appended_origin _ _ _ _ _ _ _ IH Happ _ Hm)
          as (c' & d & Hc' & Hd & Hr).
        exists d. split; auto.
        eapply rt_trans; [apply rt_step; exact Hc'|exact Hd].
Qed.

(** Every node of the tree converted from a concept obeys the
    duplication law. *)
Lemma concept_to_json_duplicates clock limit g :
  forall c k n k1 C,
    concept_to_json clock limit g c k = Ok (n, k1) -> In C (subnodes n) ->
    duplicated_with_uri g C.
Proof.
  induction limit as [|deeper IH]; intros c k n k1 C Hrun HC.
  - discriminate.
  - apply concept_to_json_inv in Hrun.
    destruct Hrun as (deeper' & nm & E & Hnm & Hcase). inversion E. subst deeper'.
    destruct Hcase as [(_ & -> & _)|(_ & ch & k2 & Hloop & -> & _)].
    + destruct HC as [<-|[]]. intros l i K Hl. discriminate.
    + apply narrower_loop_appended in Hloop.
      destruct Hloop as (l & -> & Happ). simpl in Happ.
      rewrite subnodes_eq in HC. simpl in HC. destruct HC as [<-|HC].
      * intros l' i K Hl. simpl in Hl. inversion Hl. subst l'.
        eapply appended_duplicates; eauto.
        intros; eapply represents_root; eauto.
      * eapply (appended_all clock _ g (duplicated_with_uri g)); eauto.
        intros uri nm' d ts l' i K Hl. discriminate.
Qed.

(** What a successful run of [rdf_to_json] returns. *)
Lemma rdf_to_json_inv clock limit g k out k' :
  rdf_to_json clock limit g k = Ok (out, k') ->
  exists scheme ch k1,
    hd_error (subjects g RDF_type (SKOS "ConceptScheme")) = Some scheme /\
    appended clock (concept_to_json clock limit g) g
      (objects g scheme (SKOS "hasTopConcept")) k ch k1 /\
    out = [Node "category" (str scheme)
             (str_or_None (value g scheme (DC "title"))) (Some ch)
             (get_creation_date g scheme) (clock k1) (Some true)] /\
    k' = S k1.
Proof.
  unfold rdf_to_json.
  destruct (subjects g RDF_type (SKOS "ConceptScheme")) as [|scheme rest];
    [discriminate|].
  intros H. apply bind_Ok in H. destruct H as (ch & k1 & Hloop & H).
  rewrite top_concept_loop_eq in Hloop.
  apply narrower_loop_appended in Hloop. destruct Hloop as (l & -> & Happ).
  unfold bind, time_ms, ret in H. inversion H.
  exists scheme, l, k1. auto.
Qed.

Lemma below_root_origin clock limit g k scheme ch k1 ty i nm dt ts sc :
  appended clock (concept_to_json clock limit g) g
    (objects g scheme (SKOS "hasTopConcept")) k ch k1 ->
  forall n, In n (below (Node ty i nm (Some ch) dt ts sc)) ->
    exists c, reachable g scheme c /\ represents g c n.
Proof.
  intros Happ n Hn. unfold below in Hn.
  rewrite subnodes_eq in Hn. simpl in Hn.
  destruct (appended_origin _ _ _ _ _ _ _
              (concept_to_json_origin clock limit g) Happ _ Hn)
    as (t & d & Ht & Hd & Hr).
  exists d. split; auto. exists t. split; auto.
Qed.

(** C1, as the code has it.  In every category node of the output, the
    root included, a child of type "category" is immediately followed by
    a node of type "tag" that stands for the same subject, with the same
    name and creation date and with neither [children] nor
    [showChildren]; the id of that tag is the subject's own string, of
    which the id of the category is the hash. *)
Theorem duplication_law clock limit g k out k' :
  rdf_to_json clock limit g k = Ok (out, k') ->
  forall root C, In root out -> In C (subnodes root) -> duplicated_with_uri g C.
Proof.
  intros Hrun root C Hroot HC.
  apply rdf_to_json_inv in Hrun.
  destruct Hrun as (scheme & ch & k1 & _ & Happ & -> & _).
  destruct Hroot as [<-|[]].
  rewrite subnodes_eq in HC. simpl in HC. destruct HC as [<-|HC].
  - intros l i K Hl. simpl in Hl. inversion Hl. subst l.
    eapply appended_duplicates; eauto.
    intros; eapply represents_root; eauto.
  - eapply (appended_all clock _ g (duplicated_with_uri g)); eauto.
    + intros uri nm d ts l i K Hl. discriminate.
    + intros; eapply concept_to_json_duplicates; eauto.
Qed.

Lemma duplication_law_witness :
  exists out k',
    rdf_to_json Samples.ticks 10 Samples.thesaurus 0 = Ok (out, k') /\
    forall root C, In root out -> In C (subnodes root) ->
      duplicated_with_uri Samples.thesaurus C.
Proof.
  eexists. eexists. split.
  - vm_compute. reflexivity.
  - eapply (duplication_law Samples.ticks 10 Samples.thesaurus 0).
    vm_compute. reflexivity.
Defined.

(** The claim C1 fails on the scenario of the specification: under the
    root, the category of "Animaux" is followed by a tag whose id is the
    subject's URI, not the id of the category. *)
Lemma duplicate_tag_has_other_id :
  exists root k',
    rdf_to_json Samples.ticks 10 Samples.thesaurus 0 = Ok ([root], k') /\
    ~ duplicated_with_same_id root.
Proof.
  eexists. eexists. split.
  - vm_compute. reflexivity.
  - intros H.
    destruct (H _ 0 _ eq_refl eq_refl eq_refl) as (T & HT & _ & Hid & _).
    simpl in HT. inversion HT. subst T. discriminate Hid.
Qed.

(** C2, as the code has it.  The result is the single root, whose id is
    the scheme's own string; every node below it stands for a subject
    reachable from the scheme, and its id is the hash of that subject's
    string if it is a category and the string itself if it is a tag. *)
Theorem node_ids clock limit g k out k' :
  rdf_to_json clock limit g k = Ok (out, k') ->
  exists scheme root,
    hd_error (subjects g RDF_type (SKOS "ConceptScheme")) = Some scheme /\
    out = [root] /\ id root = str scheme /\
    forall n, In n (below root) ->
      exists c, reachable g scheme c /\
        ((type n = "category" /\ id n = generate_id (str c)) \/
         (type n = "tag" /\ id n = str c)).
Proof.
  intros Hrun. apply rdf_to_json_inv in Hrun.
  destruct Hrun as (scheme & ch & k1 & Hs & Happ & -> & _).
  eexists scheme, _. split; [exact Hs|]. split; [reflexivity|].
  split; [reflexivity|].
  intros n Hn.
  destruct (below_root_origin _ _ _ _ _ _ _ _ _ _ _ _ _ Happ n Hn)
    as (c & Hc & Hr & _).
  exists c. auto.
Qed.

Lemma node_ids_witness :
  exists out k' scheme root,
    rdf_to_json Samples.ticks 10 Samples.thesaurus 0 = Ok (out, k') /\
    hd_error (subjects Samples.thesaurus RDF_type (SKOS "ConceptScheme"))
      = Some scheme /\
    out = [root] /\ id root = str scheme /\
    forall n, In n (below root) ->
      exists c, reachable Samples.thesaurus scheme c /\
        ((type n = "category" /\ id n = generate_id (str c)) \/
         (type n = "tag" /\ id n = str c)).
Proof.
  assert (H : exists out k',
             rdf_to_json Samples.ticks 10 Samples.thesaurus 0 = Ok (out, k'))
    by (vm_compute; eauto).
  destruct H as (out & k' & H). exists out, k'.
  destruct (node_ids Samples.ticks 10 Samples.thesaurus 0 out k' H)
    as (scheme & root & Hrest).
  exists scheme, root. split; [exact H|exact Hrest].
Defined.

(** The claim C2 fails on a scheme with one leaf: the node converted from
    the leaf lies below the root and its id is the subject's URI, which is
    not the hash of that URI. *)
Lemma leaf_id_is_not_hashed :
  exists root T k',
    rdf_to_json Samples.ticks 10 Cases.single_leaf 0 = Ok ([root], k') /\
    In T (below root) /\
    concept_to_json Samples.ticks 10 Cases.single_leaf (Samples.ex "dog") 0
      = Ok (T, 1) /\
    id T = "http://ex/dog" /\
    id T <> generate_id (str (Samples.ex "dog")).
Proof.
  eexists. eexists. eexists. split; [vm_compute; reflexivity|].
  split; [vm_compute; left; reflexivity|].
  split; [vm_compute; reflexivity|].
  split; [reflexivity|].
  vm_compute. discriminate.
Qed.

(** C10.  Every node below the root stands for a subject reached from
    the scheme by one hasTopConcept edge followed by narrower edges, and
    whatever subject a node stands for has the string (for a category,
    the hashed string) of such a subject; a concept tied to the scheme in
    another way contributes no node. *)
Theorem output_nodes_are_reachable clock limit g k out k' :
  rdf_to_json clock limit g k = Ok (out, k') ->
  exists scheme root,
    hd_error (subjects g RDF_type (SKOS "ConceptScheme")) = Some scheme /\
    out = [root] /\
    (forall n, In n (below root) ->
       exists c, reachable g scheme c /\ represents g c n) /\
    (forall n c', In n (below root) -> represents g c' n ->
       exists c, reachable g scheme c /\
         ((type n = "tag" /\ str c = str c') \/
          (type n = "category" /\
           generate_id (str c) = generate_id (str c')))).
Proof.
  intros Hrun. apply rdf_to_json_inv in Hrun.
  destruct Hrun as (scheme & ch & k1 & Hs & Happ & -> & _).
  eexists scheme, _. split; [exact Hs|]. split; [reflexivity|].
  match goal with
  | |- (forall n, In n (below ?r) -> _) /\ _ =>
      assert (Horigin : forall n, In n (below r) ->
                exists c, reachable g scheme c /\ represents g c n)
        by (intros n Hn; eapply below_root_origin; eauto)
  end.
  split; [exact Horigin|].
  intros n c' Hn Hr'.
  destruct (Horigin n Hn) as (c & Hc & Hr).
  exists c. split; [exact Hc|].
  destruct Hr as [[[Ht Hi]|[Ht Hi]] _], Hr' as [[[Ht' Hi']|[Ht' Hi']] _];
    try (rewrite Ht in Ht'; discriminate).
  - right. split; auto. congruence.
  - left. split; auto. congruence.
Qed.

Lemma output_nodes_are_reachable_witness :
  exists out k' scheme root,
    rdf_to_json Samples.ticks 10 Cases.in_scheme_only 0 = Ok (out, k') /\
    hd_error (subjects Cases.in_scheme_only RDF_type (SKOS "ConceptScheme"))
      = Some scheme /\
    out = [root] /\
    (forall n, In n (below root) ->
       exists c, reachable Cases.in_scheme_only scheme c /\
                 represents Cases.in_scheme_only c n) /\
    (forall n c', In n (below root) -> represents Cases.in_scheme_only c' n ->
       exists c, reachable Cases.in_scheme_only scheme c /\
         ((type n = "tag" /\ str c = str c') \/
          (type n = "category" /\
           generate_id (str c) = generate_id (str c')))).
Proof.
  assert (H : exists out k',
             rdf_to_json Samples.ticks 10 Cases.in_scheme_only 0 = Ok (out, k'))
    by (vm_compute; eauto).
  destruct H as (out & k' & H). exists out, k'.
  destruct (output_nodes_are_reachable Samples.ticks 10 Cases.in_scheme_only
              0 out k' H) as (scheme & root & Hrest).
  exists scheme, root. split; [exact H|exact Hrest].
Defined.

(* ===================================================================== *)
(** ** Termination on acyclic graphs                                     *)
(* ===================================================================== *)

Lemma chain_reaches g l :
  chain g l -> forall a r x, l = a :: r -> In x r ->
  clos_trans term (narrower g) a x.
Proof.
  induction 1 as [c|a b l Hab Hl IH]; intros a' r x E Hx; inversion E; subst.
  - destruct Hx.
  - destruct Hx as [<-|Hx].
    + now apply t_step.
    + eapply t_trans; [apply t_step; exact Hab|].
      eapply IH; eauto.
Qed.

Lemma chain_nodup g l : acyclic g -> chain g l -> NoDup l.
Proof.
  intros Hacyc. induction 1 as [c|a b l Hab Hl IH].
  - constructor; [intros []|constructor].
  - constructor; auto.
    intros Hin. apply (Hacyc a).
    eapply chain_reaches; [|reflexivity|exact Hin].
    now constructor.
Qed.

Lemma chain_objects g l :
  chain g l -> forall a r, l = a :: r -> incl r (map (fun t => snd t) g).
Proof.
  induction 1 as [c|a b l Hab Hl IH]; intros a' r E; inversion E; subst.
  - intros x [].
  - intros x [<-|Hx].
    + apply in_objects in Hab.
      apply in_map_iff. exists (a', SKOS "narrower", b). auto.
    + eapply IH; eauto.
Qed.

(** In an acyclic graph no path visits more subjects than there are
    triples, plus one. *)
Lemma chain_length_bound g c l :
  acyclic g -> chain g (c :: l) -> List.length (c :: l) <= S (List.length g).
Proof.
  intros Hacyc Hl. simpl. apply le_n_S.
  pose proof (chain_nodup _ _ Hacyc Hl) as Hnd. inversion Hnd. subst.
  rewrite <- (length_map (fun t : triple => snd t) g).
  apply NoDup_incl_length; auto.
  eapply chain_objects; eauto.
Qed.

Lemma fits_false_chain g :
  forall limit c, fits limit g c = false ->
  exists l, chain g (c :: l) /\ List.length (c :: l) = S limit.
Proof.
  induction limit as [|deeper IH]; intros c H.
  - exists []. split; [constructor|reflexivity].
  - simpl in H.
    assert (Hex : exists b, narrower g c b /\ fits deeper g b = false).
    { unfold narrower.
      induction (objects g c (SKOS "narrower")) as [|b r IHr]; simpl in H;
        [discriminate|].
      apply andb_false_iff in H. destruct H as [H|H].
      - exists b. split; auto. now left.
      - destruct (IHr H) as (b' & Hb' & Hf). exists b'. split; auto. now right. }
    destruct Hex as (b & Hb & Hf).
    destruct (IH b Hf) as (l & Hl & Hlen).
    exists (b :: l). split; [now constructor|]. simpl in *. lia.
Qed.

Lemma fits_true_chain g :
  forall limit c, fits limit g c = true ->
  forall l, chain g (c :: l) -> List.length (c :: l) <= limit.
Proof.
  induction limit as [|deeper IH]; intros c H l Hl.
  - discriminate.
  - simpl in H. rewrite forallb_forall in H.
    inversion Hl as [|a b l' Hab Hl']; subst; simpl; [lia|].
    apply le_n_S. apply (IH b); auto.
Qed.

Lemma fits_mono g limit limit' c :
  fits limit g c = true -> limit <= limit' -> fits limit' g c = true.
Proof.
  intros H Hle. destruct (fits limit' g c) eqn:E; auto.
  destruct (fits_false_chain _ _ _ E) as (l & Hl & Hlen).
  pose proof (fits_true_chain _ _ _ H _ Hl). lia.
Qed.

Lemma acyclic_fits g c : acyclic g -> fits (S (List.length g)) g c = true.
Proof.
  intros Hacyc. destruct (fits (S (List.length g)) g c) eqn:E; auto.
  destruct (fits_false_chain _ _ _ E) as (l & Hl & Hlen).
  pose proof (chain_length_bound _ _ _ Hacyc Hl). lia.
Qed.

(** The smallest limit that fits is the depth of the graph under [c]. *)
Lemma least_fit g c :
  forall limit, fits limit g c = true ->
  exists d, d <= limit /\ fits d g c = true /\
            (forall m, m < d -> fits m g c = false).
Proof.
  induction limit as [|n IH]; intros H.
  - discriminate.
  - destruct (fits n g c) eqn:E.
    + destruct (IH eq_refl) as (d & Hd & Hf & Hm). exists d. auto.
    + exists (S n). split; auto. split; auto.
      intros m Hm. destruct (fits m g c) eqn:Em; auto.
      rewrite (fits_mono _ m n c Em) in E; [discriminate|lia].
Qed.

Lemma least_fit_depth g c d :
  fits d g c = true -> (forall m, m < d -> fits m g c = false) ->
  graph_depth g c d.
Proof.
  intros Hf Hm. split.
  - destruct d as [|d']; [discriminate|].
    apply fits_false_chain. apply Hm. lia.
  - now apply fits_true_chain.
Qed.

Section Runs.

Variable clock : nat -> Z.
Variable g : Graph.
Hypothesis labels : literal_labels g.

(** The loop succeeds when every recursive call does, and overflows when
    one of them does. *)
Lemma narrower_loop_runs (rec : term -> M node) (ok : term -> bool) todo :
  (forall c k, if ok c then exists n k', rec c k = Ok (n, k')
               else rec c k = Raise RecursionError) ->
  forall acc k,
    if forallb ok todo
    then exists out k', narrower_loop clock rec g todo acc k = Ok (out, k')
    else narrower_loop clock rec g todo acc k = Raise RecursionError.
Proof.
  intros Hrec. induction todo as [|c rest IH]; intros acc k; simpl.
  - unfold ret. eauto.
  - unfold bind. specialize (Hrec c k). destruct (ok c); simpl.
    + destruct Hrec as (n & k1 & ->).
      destruct (String.eqb (type n) "category").
      * destruct (get_pref_label_fr_total g c (literal_labels_objects g c labels))
          as [nm ->].
        simpl. apply IH.
      * apply IH.
    + now rewrite Hrec.
Qed.

Lemma concept_to_json_runs :
  forall limit c k,
    if fits limit g c
    then exists n k', concept_to_json clock limit g c k = Ok (n, k')
    else concept_to_json clock limit g c k = Raise RecursionError.
Proof.
  induction limit as [|deeper IH]; intros c k.
  - reflexivity.
  - simpl. unfold bind.
    destruct (get_pref_label_fr_total g c (literal_labels_objects g c labels))
      as [nm ->].
    simpl. unfold has_children.
    pose proof (narrower_loop_runs (concept_to_json clock deeper g)
                  (fits deeper g) (objects g c (SKOS "narrower")) IH [] k) as H.
    destruct (objects g c (SKOS "narrower")) as [|b r] eqn:E.
    + simpl. rewrite create_tag_run. eauto.
    + cbn [List.length Nat.ltb Nat.leb].
      destruct (forallb (fits deeper g) (b :: r)).
      * destruct H as (out & k1 & ->). simpl. unfold ret. eauto.
      * now rewrite H.
Qed.

End Runs.

(** C9.  On a graph whose narrower relation has no cycle the conversion
    of a concept terminates: with [d] the number of subjects on the
    longest narrower path from the concept, every recursion limit of at
    least [d] lets the conversion return a node, and every smaller one is
    exceeded; the calls nest exactly [d] deep. *)
Theorem conversion_terminates_on_dag g c :
  acyclic g -> literal_labels g ->
  exists d,
    graph_depth g c d /\
    (forall clock limit k, d <= limit ->
       exists n k', concept_to_json clock limit g c k = Ok (n, k')) /\
    (forall clock limit k, limit < d ->
       concept_to_json clock limit g c k = Raise RecursionError).
Proof.
  intros Hacyc Hlab.
  destruct (least_fit g c _ (acyclic_fits g c Hacyc)) as (d & _ & Hf & Hm).
  exists d. split; [now apply least_fit_depth|]. split.
  - intros clock limit k Hle.
    pose proof (concept_to_json_runs clock g Hlab limit c k) as H.
    now rewrite (fits_mono _ _ _ _ Hf Hle) in H.
  - intros clock limit k Hlt.
    pose proof (concept_to_json_runs clock g Hlab limit c k) as H.
    now rewrite (Hm _ Hlt) in H.
Qed.

Lemma acyclic_by_rank g (rank : term -> nat) :
  (forall a b, narrower g a b -> rank b < rank a) -> acyclic g.
Proof.
  intros Hrank c Hc.
  assert (H : forall a b, clos_trans term (narrower g) a b -> rank b < rank a).
  { induction 1 as [a b Hab|a b d _ IH1 _ IH2]; [auto|lia]. }
  specialize (H c c Hc). lia.
Qed.

Lemma thesaurus_acyclic : acyclic Samples.thesaurus.
Proof.
  apply (acyclic_by_rank _ Cases.rank).
  intros a b H. apply in_objects in H. vm_compute in H.
  repeat (destruct H as [H|H]; [try discriminate H|]); try contradiction;
    inversion H; subst; vm_compute; lia.
Qed.

Lemma thesaurus_literal_labels : literal_labels Samples.thesaurus.
Proof.
  intros s o H. vm_compute in H.
  repeat (destruct H as [H|H]; [try discriminate H|]); try contradiction;
    inversion H; subst; do 3 eexists; reflexivity.
Qed.

Lemma conversion_terminates_on_dag_witness :
  exists d,
    graph_depth Samples.thesaurus (Samples.ex "animals") d /\
    (forall clock limit k, d <= limit ->
       exists n k',
         concept_to_json clock limit Samples.thesaurus (Samples.ex "animals") k
           = Ok (n, k')) /\
    (forall clock limit k, limit < d ->
       concept_to_json clock limit Samples.thesaurus (Samples.ex "animals") k
         = Raise RecursionError).
Proof.
  apply (conversion_terminates_on_dag Samples.thesaurus (Samples.ex "animals")).
  - exact thesaurus_acyclic.
  - exact thesaurus_literal_labels.
Defined.

(* ===================================================================== *)
(** ** The root                                                          *)
(* ===================================================================== *)

Lemma rdf_to_json_runs clock limit g k :
  (exists s, In (s, RDF_type, SKOS "ConceptScheme") g) ->
  literal_labels g ->
  (forall c, fits limit g c = true) ->
  exists root k',
    rdf_to_json clock limit g k = Ok ([root], k') /\
    type root = "category" /\ showChildren root = Some true.
Proof.
  intros [s Hs] Hlab Hfits.
  apply in_subjects in Hs. unfold rdf_to_json.
  destruct (subjects g RDF_type (SKOS "ConceptScheme")) as [|scheme rest];
    [destruct Hs|].
  unfold bind. rewrite top_concept_loop_eq.
  pose proof (narrower_loop_runs clock g Hlab (concept_to_json clock limit g)
                (fits limit g) (objects g scheme (SKOS "hasTopConcept"))
                (concept_to_json_runs clock g Hlab limit) [] k) as H.
  assert (Hall : forallb (fits limit g)
                   (objects g scheme (SKOS "hasTopConcept")) = true).
  { apply forallb_forall. intros c _. apply Hfits. }
  rewrite Hall in H. destruct H as (ch & k1 & ->). simpl.
  unfold ret. eexists _, _. split; [reflexivity|]. simpl. auto.
Qed.

(** C6.  Whatever the conversion returns is a one-element list whose
    element has type "category" and [showChildren] true; and it does
    return on every valid graph: one with a concept scheme, literal
    preferred labels and an acyclic narrower relation, under a recursion
    limit that exceeds the number of triples or, more precisely, that no
    narrower path exceeds. *)
Theorem root_invariant clock limit g k :
  (forall out k',
     rdf_to_json clock limit g k = Ok (out, k') ->
     exists root,
       out = [root] /\ type root = "category" /\ showChildren root = Some true) /\
  ((exists s, In (s, RDF_type, SKOS "ConceptScheme") g) ->
   acyclic g -> literal_labels g -> List.length g < limit ->
   exists root k',
     rdf_to_json clock limit g k = Ok ([root], k') /\
     type root = "category" /\ showChildren root = Some true) /\
  ((exists s, In (s, RDF_type, SKOS "ConceptScheme") g) ->
   literal_labels g ->
   (forall l, chain g l -> List.length l <= limit) ->
   exists root k',
     rdf_to_json clock limit g k = Ok ([root], k') /\
     type root = "category" /\ showChildren root = Some true).
Proof.
  split; [|split].
  - intros out k' Hrun. apply rdf_to_json_inv in Hrun.
    destruct Hrun as (scheme & ch & k1 & _ & _ & -> & _).
    eexists. split; [reflexivity|]. simpl. auto.
  - intros Hs Hacyc Hlab Hlimit.
    apply rdf_to_json_runs; auto. intros c.
    apply (fits_mono g (S (List.length g))); [now apply acyclic_fits|lia].
  - intros Hs Hlab Hpaths.
    apply rdf_to_json_runs; auto. intros c.
    destruct (fits limit g c) eqn:E; auto.
    destruct (fits_false_chain _ _ _ E) as (l & Hl & Hlen).
    specialize (Hpaths _ Hl). lia.
Qed.

Lemma root_invariant_witness :
  exists root k',
    rdf_to_json Samples.ticks 13 Samples.thesaurus 0 = Ok ([root], k') /\
    type root = "category" /\ showChildren root = Some true.
Proof.
  refine (proj1 (proj2 (root_invariant Samples.ticks 13 Samples.thesaurus 0))
            _ _ _ _).
  - exists (Samples.ex "scheme"). vm_compute. auto.
  - exact thesaurus_acyclic.
  - exact thesaurus_literal_labels.
  - vm_compute. lia.
Defined.

(* ===================================================================== *)
(** ** Categories, tags and the order of children                        *)
(* ===================================================================== *)

Lemma has_children_true g c :
  has_children g c = true <-> exists o, In (c, SKOS "narrower", o) g.
Proof.
  unfold has_children. split.
  - destruct (objects g c (SKOS "narrower")) as [|o r] eqn:E; [discriminate|].
    intros _. exists o. apply in_objects. rewrite E. now left.
  - intros [o Ho]. apply in_objects in Ho.
    destruct (objects g c (SKOS "narrower")); [destruct Ho|reflexivity].
Qed.

Lemma concept_to_json_type_and_id clock limit g c k n k' :
  concept_to_json clock limit g c k = Ok (n, k') ->
  type_and_id n = if has_children g c
                  then ("category", generate_id (str c))
                  else ("tag", str c).
Proof.
  intros H. apply concept_to_json_inv in H.
  destruct H as (deeper & nm & _ & _ &
                 [(Hc & -> & _)|(Hc & ch & k1 & _ & -> & _)]);
    rewrite Hc; reflexivity.
Qed.

(** X1.  The node converted from a concept has type "category" exactly
    when the graph holds a narrower triple with the concept as subject,
    and type "tag" exactly when it holds none. *)
Theorem category_iff_narrower clock limit g c k n k' :
  concept_to_json clock limit g c k = Ok (n, k') ->
  (type n = "category" <-> exists o, In (c, SKOS "narrower", o) g) /\
  (type n = "tag" <-> forall o, ~ In (c, SKOS "narrower", o) g).
Proof.
  intros H. apply concept_to_json_type_and_id in H.
  unfold type_and_id in H.
  destruct (has_children g c) eqn:Hc; inversion H as [[Ht Hi]]; rewrite Ht.
  - apply has_children_true in Hc. split; split; auto; try discriminate.
    intros Hno. destruct Hc as [o Ho]. now elim (Hno o).
  - assert (Hno : forall o, ~ In (c, SKOS "narrower", o) g).
    { intros o Ho.
      assert (Ht' : has_children g c = true) by (apply has_children_true; eauto).
      rewrite Hc in Ht'. discriminate. }
    split; split; auto; try discriminate.
    intros [o Ho]. now elim (Hno o).
Qed.

Lemma category_iff_narrower_witness :
  exists n k',
    concept_to_json Samples.ticks 5 Samples.thesaurus (Samples.ex "mammals") 0
      = Ok (n, k') /\
    (type n = "category" <->
     exists o, In (Samples.ex "mammals", SKOS "narrower", o) Samples.thesaurus) /\
    (type n = "tag" <->
     forall o, ~ In (Samples.ex "mammals", SKOS "narrower", o) Samples.thesaurus).
Proof.
  assert (H : exists n k',
             concept_to_json Samples.ticks 5 Samples.thesaurus
               (Samples.ex "mammals") 0 = Ok (n, k'))
    by (vm_compute; eauto).
  destruct H as (n & k' & H). exists n, k'. split; [exact H|].
  exact (category_iff_narrower Samples.ticks 5 Samples.thesaurus
           (Samples.ex "mammals") 0 n k' H).
Defined.

Lemma get_creation_date_None g c :
  get_creation_date g c = None <-> forall o, ~ In (c, DCT "created", o) g.
Proof.
  unfold get_creation_date. split.
  - destruct (objects g c (DCT "created")) as [|o r] eqn:E; [|discriminate].
    intros _ o Ho. apply in_objects in Ho. rewrite E in Ho. destruct Ho.
  - intros Hno. destruct (objects g c (DCT "created")) as [|o r] eqn:E; auto.
    exfalso. apply (Hno o). apply in_objects. rewrite E. now left.
Qed.

(** X2.  The node converted from a concept has a null creation date
    exactly when the graph holds no dcterms:created triple for the
    concept; otherwise its creation date is the string of the first
    object of such a triple, whatever that object is. *)
Theorem creation_date_of_node clock limit g c k n k' :
  concept_to_json clock limit g c k = Ok (n, k') ->
  (creationDate n = None <-> forall o, ~ In (c, DCT "created", o) g) /\
  (forall s, creationDate n = Some s ->
     exists o rest, objects g c (DCT "created") = o :: rest /\
                    In (c, DCT "created", o) g /\ s = str o).
Proof.
  intros H. pose proof (represents_root _ _ _ _ _ _ _ H) as (_ & _ & Hd).
  rewrite Hd. split; [apply get_creation_date_None|].
  intros s Hs. unfold get_creation_date in Hs.
  destruct (objects g c (DCT "created")) as [|o r] eqn:E; [discriminate|].
  inversion Hs. exists o, r. split; auto. split; auto.
  apply in_objects. rewrite E. now left.
Qed.

Lemma creation_date_of_node_witness :
  exists n k',
    concept_to_json Samples.ticks 5 Samples.thesaurus (Samples.ex "animals") 0
      = Ok (n, k') /\
    (creationDate n = None <->
     forall o, ~ In (Samples.ex "animals", DCT "created", o) Samples.thesaurus) /\
    (forall s, creationDate n = Some s ->
       exists o rest,
         objects Samples.thesaurus (Samples.ex "animals") (DCT "created")
           = o :: rest /\
         In (Samples.ex "animals", DCT "created", o) Samples.thesaurus /\
         s = str o).
Proof.
  assert (H : exists n k',
             concept_to_json Samples.ticks 5 Samples.thesaurus
               (Samples.ex "animals") 0 = Ok (n, k'))
    by (vm_compute; eauto).
  destruct H as (n & k' & H). exists n, k'. split; [exact H|].
  exact (creation_date_of_node Samples.ticks 5 Samples.thesaurus
           (Samples.ex "animals") 0 n k' H).
Defined.

Lemma concept_to_json_shapes clock limit g :
  forall c k n k1 m,
    concept_to_json clock limit g c k = Ok (n, k1) -> In m (subnodes n) ->
    tag_or_category m.
Proof.
  induction limit as [|deeper IH]; intros c k n k1 m Hrun Hm.
  - discriminate.
  - apply concept_to_json_inv in Hrun.
    destruct Hrun as (deeper' & nm & E & Hnm & Hcase). inversion E. subst deeper'.
    destruct Hcase as [(_ & -> & _)|(_ & ch & k2 & Hloop & -> & _)].
    + destruct Hm as [<-|[]]. left. simpl. auto.
    + rewrite subnodes_eq in Hm. simpl in Hm. destruct Hm as [<-|Hm].
      * right. simpl. eauto.
      * apply narrower_loop_appended in Hloop.
        destruct Hloop as (l & -> & Happ). simpl in Hm.
        eapply (appended_all clock _ g tag_or_category); eauto.
        intros. left. simpl. auto.
Qed.

(** X3.  Every node of the returned tree is either a tag, with neither a
    [children] nor a [showChildren] key, or a category, with a [children]
    list and [showChildren] true. *)
Theorem nodes_are_tags_or_categories clock limit g k out k' :
  rdf_to_json clock limit g k = Ok (out, k') ->
  forall root n, In root out -> In n (subnodes root) -> tag_or_category n.
Proof.
  intros Hrun root n Hroot Hn.
  apply rdf_to_json_inv in Hrun.
  destruct Hrun as (scheme & ch & k1 & _ & Happ & -> & _).
  destruct Hroot as [<-|[]].
  rewrite subnodes_eq in Hn. simpl in Hn. destruct Hn as [<-|Hn].
  - right. simpl. eauto.
  - eapply (appended_all clock _ g tag_or_category); eauto.
    + intros. left. simpl. auto.
    + intros; eapply concept_to_json_shapes; eauto.
Qed.

Lemma nodes_are_tags_or_categories_witness :
  exists out k',
    rdf_to_json Samples.ticks 10 Samples.thesaurus 0 = Ok (out, k') /\
    forall root n, In root out -> In n (subnodes root) -> tag_or_category n.
Proof.
  eexists. eexists. split.
  - vm_compute. reflexivity.
  - eapply (nodes_are_tags_or_categories Samples.ticks 10 Samples.thesaurus 0).
    vm_compute. reflexivity.
Defined.

Lemma appended_types_and_ids clock rec g todo k l k' :
  (forall c k n k1, rec c k = Ok (n, k1) ->
     type_and_id n = if has_children g c
                     then ("category", generate_id (str c))
                     else ("tag", str c)) ->
  appended clock rec g todo k l k' ->
  map type_and_id l = expected_children g todo.
Proof.
  intros Hrec.
  induction 1 as [k|c rest k n k1 l k' Hn Ht Hl IH
                    |c rest k n k1 nm l k' Hn Ht Hnm Hl IH].
  - reflexivity.
  - apply Hrec in Hn. unfold expected_children. simpl.
    destruct (has_children g c).
    + unfold type_and_id in Hn. inversion Hn. contradiction.
    + simpl. rewrite Hn. f_equal. exact IH.
  - apply Hrec in Hn. unfold expected_children. simpl.
    destruct (has_children g c).
    + simpl. rewrite Hn. f_equal. f_equal. exact IH.
    + unfold type_and_id in Hn. inversion Hn as [[Ht' Hi]].
      rewrite Ht in Ht'. discriminate.
Qed.

(** The children of every category of the tree converted from a concept
    are those expected for the narrower objects of its subject. *)
Lemma concept_to_json_children clock limit g :
  forall c k n k1 C,
    concept_to_json clock limit g c k = Ok (n, k1) -> In C (subnodes n) ->
    type C = "category" ->
    exists d l, represents g d C /\ children C = Some l /\
      map type_and_id l = expected_children g (objects g d (SKOS "narrower")).
Proof.
  induction limit as [|deeper IH]; intros c k n k1 C Hrun HC Ht.
  - discriminate.
  - pose proof (represents_root _ _ _ _ _ _ _ Hrun) as Hroot.
    apply concept_to_json_inv in Hrun.
    destruct Hrun as (deeper' & nm & E & Hnm & Hcase). inversion E. subst deeper'.
    destruct Hcase as [(_ & -> & _)|(_ & ch & k2 & Hloop & -> & _)].
    + destruct HC as [<-|[]]. discriminate.
    + apply narrower_loop_appended in Hloop.
      destruct Hloop as (l & -> & Happ). simpl in Happ.
      rewrite subnodes_eq in HC. simpl in HC. destruct HC as [<-|HC].
      * exists c, l. split; [exact Hroot|]. split; [reflexivity|].
        eapply appended_types_and_ids; eauto.
        intros; eapply concept_to_json_type_and_id; eauto.
      * revert Ht.
        eapply (appended_all clock _ g
                  (fun C => type C = "category" ->
                     exists d l, represents g d C /\ children C = Some l /\
                       map type_and_id l
                       = expected_children g (objects g d (SKOS "narrower"))));
          eauto.
        intros. discriminate.
Qed.

(** X4.  The children of the root are, in the iteration order of the top
    concepts, a category followed by a tag for each top concept that has
    narrower concepts and a single tag for each other one, with the
    hashed and the plain string of the subject as ids; the children of
    every category below the root are the same for the narrower objects
    of the subject it stands for. *)
Theorem children_follow_the_graph clock limit g k out k' :
  rdf_to_json clock limit g k = Ok (out, k') ->
  exists scheme root l,
    hd_error (subjects g RDF_type (SKOS "ConceptScheme")) = Some scheme /\
    out = [root] /\ children root = Some l /\
    map type_and_id l
    = expected_children g (objects g scheme (SKOS "hasTopConcept")) /\
    (forall C, In C (below root) -> type C = "category" ->
       exists d l',
         represents g d C /\ children C = Some l' /\
         map type_and_id l'
         = expected_children g (objects g d (SKOS "narrower"))).
Proof.
  intros Hrun. apply rdf_to_json_inv in Hrun.
  destruct Hrun as (scheme & ch & k1 & Hs & Happ & -> & _).
  eexists scheme, _, ch. split; [exact Hs|]. split; [reflexivity|].
  split; [reflexivity|]. split.
  - eapply appended_types_and_ids; eauto.
    intros; eapply concept_to_json_type_and_id; eauto.
  - intros C HC. unfold below in HC. rewrite subnodes_eq in HC. simpl in HC.
    eapply (appended_all clock _ g
              (fun C => type C = "category" ->
                 exists d l, represents g d C /\ children C = Some l /\
                   map type_and_id l
                   = expected_children g (objects g d (SKOS "narrower"))));
      eauto.
    + intros. discriminate.
    + intros c0 k0 n0 k2 m Hc0 Hm. eapply concept_to_json_children; eauto.
Qed.

Lemma children_follow_the_graph_witness :
  exists out k' scheme root l,
    rdf_to_json Samples.ticks 10 Samples.thesaurus 0 = Ok (out, k') /\
    hd_error (subjects Samples.thesaurus RDF_type (SKOS "ConceptScheme"))
      = Some scheme /\
    out = [root] /\ children root = Some l /\
    map type_and_id l
    = expected_children Samples.thesaurus
        (objects Samples.thesaurus scheme (SKOS "hasTopConcept")) /\
    (forall C, In C (below root) -> type C = "category" ->
       exists d l',
         represents Samples.thesaurus d C /\ children C = Some l' /\
         map type_and_id l'
         = expected_children Samples.thesaurus
             (objects Samples.thesaurus d (SKOS "narrower"))).
Proof.
  assert (H : exists out k',
             rdf_to_json Samples.ticks 10 Samples.thesaurus 0 = Ok (out, k'))
    by (vm_compute; eauto).
  destruct H as (out & k' & H). exists out, k'.
  destruct (children_follow_the_graph Samples.ticks 10 Samples.thesaurus 0
              out k' H) as (scheme & root & l & Hrest).
  exists scheme, root, l. split; [exact H|exact Hrest].
Defined.

(* ===================================================================== *)
(** ** Timestamps                                                        *)
(* ===================================================================== *)

Lemma node_induction (P : node -> Prop) :
  (forall t i nm d ts sc, P (Node t i nm None d ts sc)) ->
  (forall t i nm l d ts sc, Forall P l -> P (Node t i nm (Some l) d ts sc)) ->
  forall n, P n.
Proof.
  intros Hleaf Hbranch. fix IH 1. intros [t i nm [l|] d ts sc].
  - apply Hbranch.
    exact ((fix each (l : list node) : Forall P l :=
              match l with
              | [] => Forall_nil P
              | x :: r => Forall_cons x (IH x) (each r)
              end) l).
  - apply Hleaf.
Qed.

Lemma postorder_eq n :
  postorder n = match children n with
                | Some l => flat_map postorder l
                | None => []
                end ++ [n].
Proof. destruct n as [t i nm ch d ts sc]. reflexivity. Qed.

Lemma postorder_subnodes n : Permutation (postorder n) (subnodes n).
Proof.
  induction n as [t i nm d ts sc|t i nm l d ts sc IH] using node_induction.
  - reflexivity.
  - rewrite postorder_eq, subnodes_eq. simpl.
    etransitivity; [apply Permutation_sym, Permutation_cons_append|].
    apply perm_skip.
    induction IH as [|x r Hx Hr IHr]; simpl; auto.
    now apply Permutation_app.
Qed.

Lemma flat_postorder_subnodes l :
  Permutation (flat_map postorder l) (flat_map subnodes l).
Proof.
  induction l as [|x r IH]; simpl; auto.
  apply Permutation_app; auto. apply postorder_subnodes.
Qed.

Lemma stamped_app clock k a k1 b k2 :
  stamped clock k a k1 -> stamped clock k1 b k2 -> stamped clock k (a ++ b) k2.
Proof.
  intros [-> Ha] [-> Hb]. unfold stamped.
  rewrite length_app, map_app, seq_app, map_app, Ha, Hb. split; [lia|reflexivity].
Qed.

Lemma stamped_one clock k n :
  creationTimestamp n = clock k -> stamped clock k [n] (S k).
Proof. intros H. unfold stamped. simpl. rewrite H. split; [lia|reflexivity]. Qed.

Lemma appended_stamped clock rec g todo k l k' :
  (forall c k n k1, rec c k = Ok (n, k1) -> stamped clock k (postorder n) k1) ->
  appended clock rec g todo k l k' ->
  stamped clock k (flat_map postorder l) k'.
Proof.
  intros Hrec.
  induction 1 as [k|c rest k n k1 l k' Hn Ht Hl IH
                    |c rest k n k1 nm l k' Hn Ht Hnm Hl IH].
  - unfold stamped. simpl. split; [lia|reflexivity].
  - simpl. eapply stamped_app; eauto.
  - simpl. eapply stamped_app; [eauto|].
    eapply (stamped_app _ _ [_]); [|exact IH].
    now apply stamped_one.
Qed.

Lemma concept_to_json_stamped clock limit g :
  forall c k n k1,
    concept_to_json clock limit g c k = Ok (n, k1) ->
    stamped clock k (postorder n) k1.
Proof.
  induction limit as [|deeper IH]; intros c k n k1 Hrun.
  - discriminate.
  - apply concept_to_json_inv in Hrun.
    destruct Hrun as (deeper' & nm & E & Hnm & Hcase). inversion E. subst deeper'.
    destruct Hcase as [(_ & -> & ->)|(_ & ch & k2 & Hloop & -> & ->)].
    + now apply stamped_one.
    + apply narrower_loop_appended in Hloop.
      destruct Hloop as (l & -> & Happ). simpl in Happ.
      rewrite postorder_eq. simpl.
      eapply stamped_app; [eapply appended_stamped; eauto|].
      now apply stamped_one.
Qed.

Lemma rdf_to_json_stamped clock limit g k out k' :
  rdf_to_json clock limit g k = Ok (out, k') ->
  exists root, out = [root] /\ stamped clock k (postorder root) k'.
Proof.
  intros Hrun. apply rdf_to_json_inv in Hrun.
  destruct Hrun as (scheme & ch & k1 & _ & Happ & -> & ->).
  eexists. split; [reflexivity|].
  rewrite postorder_eq. simpl.
  eapply stamped_app.
  - eapply appended_stamped; [|exact Happ].
    intros; eapply concept_to_json_stamped; eauto.
  - now apply stamped_one.
Qed.

(** X5.  A run reads the clock once for each node of the tree it returns,
    and the nodes bear consecutive readings in the order they are
    completed: children in list order, each node after the nodes below
    it. *)
Theorem clock_read_once_per_node clock limit g k out k' :
  rdf_to_json clock limit g k = Ok (out, k') ->
  exists root,
    out = [root] /\
    k' = k + List.length (subnodes root) /\
    map creationTimestamp (postorder root)
    = map clock (seq k (List.length (subnodes root))).
Proof.
  intros Hrun. apply rdf_to_json_stamped in Hrun.
  destruct Hrun as (root & -> & Hk & Hts).
  exists root. split; [reflexivity|].
  rewrite <- (Permutation_length (postorder_subnodes root)). auto.
Qed.

Lemma clock_read_once_per_node_witness :
  exists out k' root,
    rdf_to_json Samples.ticks 10 Samples.thesaurus 0 = Ok (out, k') /\
    out = [root] /\
    k' = 0 + List.length (subnodes root) /\
    map creationTimestamp (postorder root)
    = map Samples.ticks (seq 0 (List.length (subnodes root))).
Proof.
  assert (H : exists out k',
             rdf_to_json Samples.ticks 10 Samples.thesaurus 0 = Ok (out, k'))
    by (vm_compute; eauto).
  destruct H as (out & k' & H). exists out, k'.
  destruct (clock_read_once_per_node Samples.ticks 10 Samples.thesaurus 0
              out k' H) as (root & Hrest).
  exists root. split; [exact H|exact Hrest].
Defined.

(** Under a monotone clock the last node completed bears the largest
    timestamp. *)
Lemma stamped_last clock k done n k' x :
  monotone clock ->
  stamped clock k (done ++ [n]) k' ->
  In x (done ++ [n]) ->
  (creationTimestamp x <= creationTimestamp n)%Z.
Proof.
  intros Hmono [_ Hts] Hx.
  rewrite length_app in Hts. simpl in Hts.
  rewrite seq_app, !map_app in Hts. simpl in Hts.
  apply app_inj_tail in Hts. destruct Hts as [Hdone Hn]. rewrite Hn.
  apply in_app_or in Hx. destruct Hx as [Hx|[<-|[]]].
  - apply (in_map creationTimestamp) in Hx. rewrite Hdone in Hx.
    apply in_map_iff in Hx. destruct Hx as (j & <- & Hj).
    apply in_seq in Hj. apply Hmono. lia.
  - rewrite Hn. lia.
Qed.

Lemma concept_to_json_stamp_order clock limit g :
  monotone clock ->
  forall c k n k1 m,
    concept_to_json clock limit g c k = Ok (n, k1) -> In m (subnodes n) ->
    forall x, In x (subnodes m) ->
      (creationTimestamp x <= creationTimestamp m)%Z.
Proof.
  intros Hmono.
  induction limit as [|deeper IH]; intros c k n k1 m Hrun Hm.
  - discriminate.
  - pose proof (concept_to_json_stamped _ _ _ _ _ _ _ Hrun) as Hst.
    apply concept_to_json_inv in Hrun.
    destruct Hrun as (deeper' & nm & E & Hnm & Hcase). inversion E. subst deeper'.
    destruct Hcase as [(_ & -> & _)|(_ & ch & k2 & Hloop & -> & _)].
    + destruct Hm as [<-|[]]. intros x [<-|[]]. lia.
    + rewrite subnodes_eq in Hm. simpl in Hm. destruct Hm as [<-|Hm].
      * intros x Hx. rewrite postorder_eq in Hst. simpl in Hst.
        eapply stamped_last; [exact Hmono|exact Hst|].
        match goal with
        | |- In x (flat_map postorder ch ++ [?r]) =>
            change (In x (postorder r))
        end.
        eapply Permutation_in; [apply Permutation_sym, postorder_subnodes|].
        exact Hx.
      * apply narrower_loop_appended in Hloop.
        destruct Hloop as (l & -> & Happ). simpl in Hm.
        eapply (appended_all clock _ g
                  (fun m => forall x, In x (subnodes m) ->
                     (creationTimestamp x <= creationTimestamp m)%Z)); eauto.
        intros uri nm' d ts x [<-|[]]. lia.
Qed.

(** X6.  When the clock never runs backwards, no node of the returned
    tree bears an earlier timestamp than a node below it. *)
Theorem parents_are_stamped_last clock limit g k out k' :
  monotone clock ->
  rdf_to_json clock limit g k = Ok (out, k') ->
  forall root m x,
    In root out -> In m (subnodes root) -> In x (subnodes m) ->
    (creationTimestamp x <= creationTimestamp m)%Z.
Proof.
  intros Hmono Hrun root m x Hroot Hm Hx.
  pose proof (rdf_to_json_stamped _ _ _ _ _ _ Hrun) as (root' & E & Hst).
  apply rdf_to_json_inv in Hrun.
  destruct Hrun as (scheme & ch & k1 & _ & Happ & -> & _).
  inversion E. subst root'. destruct Hroot as [<-|[]].
  rewrite subnodes_eq in Hm. simpl in Hm. destruct Hm as [<-|Hm].
  - rewrite postorder_eq in Hst. simpl in Hst.
    eapply stamped_last; [exact Hmono|exact Hst|].
    match goal with
    | |- In x (flat_map postorder ch ++ [?r]) =>
        change (In x (postorder r))
    end.
    eapply Permutation_in; [apply Permutation_sym, postorder_subnodes|].
    exact Hx.
  - revert x Hx.
    eapply (appended_all clock _ g
              (fun m => forall x, In x (subnodes m) ->
                 (creationTimestamp x <= creationTimestamp m)%Z)); eauto.
    + intros uri nm' d ts x [<-|[]]. lia.
    + intros c0 k0 n0 k2 m0 Hc0 Hm0.
      eapply concept_to_json_stamp_order; eauto.
Qed.

Lemma ticks_monotone : monotone Samples.ticks.
Proof. intros i j H. unfold Samples.ticks. lia. Qed.

Lemma parents_are_stamped_last_witness :
  exists out k',
    rdf_to_json Samples.ticks 10 Samples.thesaurus 0 = Ok (out, k') /\
    forall root m x,
      In root out -> In m (subnodes root) -> In x (subnodes m) ->
      (creationTimestamp x <= creationTimestamp m)%Z.
Proof.
  assert (H : exists out k',
             rdf_to_json Samples.ticks 10 Samples.thesaurus 0 = Ok (out, k'))
    by (vm_compute; eauto).
  destruct H as (out & k' & H). exists out, k'. split; [exact H|].
  exact (parents_are_stamped_last Samples.ticks 10 Samples.thesaurus 0 out k'
           ticks_monotone H).
Defined.

(* ===================================================================== *)
(** ** The root and the recursion limit                                  *)
(* ===================================================================== *)

Lemma no_objects g s p :
  (forall o, ~ In (s, p, o) g) -> objects g s p = [].
Proof.
  intros H. destruct (objects g s p) as [|o r] eqn:E; auto.
  exfalso. apply (H o). apply in_objects. rewrite E. now left.
Qed.

(** X7.  A scheme without top concepts is converted, under any recursion
    limit, to a root whose [children] is the empty list, after a single
    reading of the clock. *)
Theorem scheme_without_top_concepts clock limit g k scheme :
  hd_error (subjects g RDF_type (SKOS "ConceptScheme")) = Some scheme ->
  (forall o, ~ In (scheme, SKOS "hasTopConcept", o) g) ->
  rdf_to_json clock limit g k =
    Ok ([Node "category" (str scheme)
              (str_or_None (value g scheme (DC "title"))) (Some [])
              (get_creation_date g scheme) (clock k) (Some true)], S k).
Proof.
  intros Hs Hno. unfold rdf_to_json.
  destruct (subjects g RDF_type (SKOS "ConceptScheme")) as [|s r];
    [discriminate|].
  inversion Hs. subst s.
  rewrite (no_objects _ _ _ Hno). reflexivity.
Qed.

Lemma scheme_without_top_concepts_witness :
  rdf_to_json Samples.ticks 0 Edge.empty_scheme 0 =
    Ok ([Node "category" (str (Samples.ex "scheme"))
              (str_or_None (value Edge.empty_scheme (Samples.ex "scheme")
                              (DC "title")))
              (Some [])
              (get_creation_date Edge.empty_scheme (Samples.ex "scheme"))
              (Samples.ticks 0) (Some true)], 1).
Proof.
  apply (scheme_without_top_concepts Samples.ticks 0 Edge.empty_scheme 0
           (Samples.ex "scheme")).
  - vm_compute. reflexivity.
  - intros o H. vm_compute in H.
    repeat (destruct H as [H|H]; [discriminate H|]). exact H.
Defined.

(** X8.  The root is named after the first dc:title of the scheme, and
    "None" when the scheme has no title; its creation date is that of the
    scheme, null when the scheme has none. *)
Theorem root_name_and_date clock limit g k out k' :
  rdf_to_json clock limit g k = Ok (out, k') ->
  exists scheme root,
    hd_error (subjects g RDF_type (SKOS "ConceptScheme")) = Some scheme /\
    out = [root] /\
    ((forall o, ~ In (scheme, DC "title", o) g) -> name root = "None") /\
    (forall t rest,
       objects g scheme (DC "title") = t :: rest -> name root = str t) /\
    (creationDate root = None <->
     forall o, ~ In (scheme, DCT "created", o) g) /\
    (forall d rest,
       objects g scheme (DCT "created") = d :: rest ->
       creationDate root = Some (str d)).
Proof.
  intros Hrun. apply rdf_to_json_inv in Hrun.
  destruct Hrun as (scheme & ch & k1 & Hs & _ & -> & _).
  eexists scheme, _. split; [exact Hs|]. split; [reflexivity|]. simpl.
  split; [|split; [|split]].
  - intros Hno. unfold value. now rewrite (no_objects _ _ _ Hno).
  - intros t rest E. unfold value. now rewrite E.
  - apply get_creation_date_None.
  - intros d rest E. unfold get_creation_date. now rewrite E.
Qed.

Lemma root_name_and_date_witness :
  exists out k' scheme root,
    rdf_to_json Samples.ticks 0 Edge.empty_scheme 0 = Ok (out, k') /\
    hd_error (subjects Edge.empty_scheme RDF_type (SKOS "ConceptScheme"))
      = Some scheme /\
    out = [root] /\
    ((forall o, ~ In (scheme, DC "title", o) Edge.empty_scheme) ->
     name root = "None") /\
    (forall t rest,
       objects Edge.empty_scheme scheme (DC "title") = t :: rest ->
       name root = str t) /\
    (creationDate root = None <->
     forall o, ~ In (scheme, DCT "created", o) Edge.empty_scheme) /\
    (forall d rest,
       objects Edge.empty_scheme scheme (DCT "created") = d :: rest ->
       creationDate root = Some (str d)).
Proof.
  assert (H : exists out k',
             rdf_to_json Samples.ticks 0 Edge.empty_scheme 0 = Ok (out, k'))
    by (vm_compute; eauto).
  destruct H as (out & k' & H). exists out, k'.
  destruct (root_name_and_date Samples.ticks 0 Edge.empty_scheme 0 out k' H)
    as (scheme & root & Hrest).
  exists scheme, root. split; [exact H|exact Hrest].
Defined.

Lemma narrower_loop_same clock rec1 rec2 g todo :
  (forall c k r, rec1 c k = Ok r -> rec2 c k = Ok r) ->
  forall acc k r,
    narrower_loop clock rec1 g todo acc k = Ok r ->
    narrower_loop clock rec2 g todo acc k = Ok r.
Proof.
  intros Hrec. induction todo as [|c rest IH]; intros acc k r H; simpl in *.
  - exact H.
  - unfold bind in *.
    destruct (rec1 c k) as [[n k1]|e] eqn:E; [|discriminate].
    rewrite (Hrec _ _ _ E).
    destruct (String.eqb (type n) "category"); [|now apply IH].
    destruct (lift (get_pref_label_fr g c) k1) as [[nm k2]|e]; [|discriminate].
    simpl in *. now apply IH.
Qed.

Lemma concept_to_json_limit clock g :
  forall limit limit' c k r,
    limit <= limit' ->
    concept_to_json clock limit g c k = Ok r ->
    concept_to_json clock limit' g c k = Ok r.
Proof.
  induction limit as [|deeper IH]; intros limit' c k r Hle H.
  - discriminate.
  - destruct limit' as [|deeper']; [lia|]. simpl in *. unfold bind in *.
    destruct (lift (get_pref_label_fr g c) k) as [[nm k0]|e]; [|discriminate].
    destruct (has_children g c); [|exact H].
    destruct (narrower_loop clock (concept_to_json clock deeper g) g
                (objects g c (SKOS "narrower")) [] k0) as [[ch k1]|e] eqn:E;
      [|discriminate].
    assert (Hfun : forall c' k' r',
               concept_to_json clock deeper g c' k' = Ok r' ->
               concept_to_json clock deeper' g c' k' = Ok r')
      by (intros c' k' r'; apply IH; lia).
    rewrite (narrower_loop_same _ _ _ _ _ Hfun _ _ _ E). exact H.
Qed.

(** X9.  Raising the recursion limit changes nothing to a conversion that
    succeeds: the same tree is returned after the same readings of the
    clock. *)
Theorem larger_limit_same_result clock g limit limit' k :
  limit <= limit' ->
  (forall c r, concept_to_json clock limit g c k = Ok r ->
               concept_to_json clock limit' g c k = Ok r) /\
  (forall r, rdf_to_json clock limit g k = Ok r ->
             rdf_to_json clock limit' g k = Ok r).
Proof.
  intros Hle. split.
  - intros c r. now apply concept_to_json_limit.
  - intros r H. unfold rdf_to_json in *.
    destruct (subjects g RDF_type (SKOS "ConceptScheme")) as [|scheme rest];
      [discriminate|].
    unfold bind in *. rewrite top_concept_loop_eq in *.
    destruct (narrower_loop clock (concept_to_json clock limit g) g
                (objects g scheme (SKOS "hasTopConcept")) [] k)
      as [[ch k1]|e] eqn:E; [|discriminate].
    assert (Hfun : forall c' k' r',
               concept_to_json clock limit g c' k' = Ok r' ->
               concept_to_json clock limit' g c' k' = Ok r')
      by (intros c' k' r'; now apply concept_to_json_limit).
    rewrite (narrower_loop_same _ _ _ _ _ Hfun _ _ _ E). exact H.
Qed.

Lemma larger_limit_same_result_witness :
  exists r,
    rdf_to_json Samples.ticks 3 Samples.thesaurus 0 = Ok r /\
    rdf_to_json Samples.ticks 1000 Samples.thesaurus 0 = Ok r.
Proof.
  assert (H : exists r, rdf_to_json Samples.ticks 3 Samples.thesaurus 0 = Ok r)
    by (vm_compute; eauto).
  destruct H as (r & H). exists r. split; [exact H|].
  refine (proj2 (larger_limit_same_result Samples.ticks Samples.thesaurus
                   3 1000 0 _) r H).
  lia.
Defined.

(* ===================================================================== *)
(** ** Cycles                                                            *)
(* ===================================================================== *)

Lemma appended_calls clock rec g todo k l k' :
  appended clock rec g todo k l k' ->
  forall c, In c todo -> exists k0 n k1, rec c k0 = Ok (n, k1).
Proof.
  induction 1 as [k|c rest k n k1 l k' Hn Ht Hl IH
                    |c rest k n k1 nm l k' Hn Ht Hnm Hl IH];
    intros c' Hc'.
  - destruct Hc'.
  - destruct Hc' as [<-|Hc']; eauto.
  - destruct Hc' as [<-|Hc']; eauto.
Qed.

(** A conversion that succeeds stayed within the limit. *)
Lemma concept_to_json_fits clock g :
  forall limit c k n k1,
    concept_to_json clock limit g c k = Ok (n, k1) -> fits limit g c = true.
Proof.
  induction limit as [|deeper IH]; intros c k n k1 Hrun.
  - discriminate.
  - apply concept_to_json_inv in Hrun.
    destruct Hrun as (deeper' & nm & E & Hnm & Hcase). inversion E. subst deeper'.
    simpl. apply forallb_forall. intros b Hb.
    destruct Hcase as [(Hc & _)|(_ & ch & k2 & Hloop & _)].
    + apply has_children_false in Hc. rewrite Hc in Hb. destruct Hb.
    + apply narrower_loop_appended in Hloop.
      destruct Hloop as (l & _ & Happ).
      destruct (appended_calls _ _ _ _ _ _ _ Happ b Hb) as (k0 & n0 & k3 & Hb').
      eapply IH; eauto.
Qed.

Lemma chain_prepend g a b :
  clos_trans term (narrower g) a b ->
  forall l, chain g (b :: l) -> exists m, chain g (a :: m ++ b :: l).
Proof.
  induction 1 as [a b Hab|a b c _ IH1 _ IH2]; intros l Hl.
  - exists []. now constructor.
  - destruct (IH2 l Hl) as (m2 & H2).
    destruct (IH1 _ H2) as (m1 & H1).
    exists (m1 ++ b :: m2). now rewrite <- app_assoc.
Qed.

Lemma cycle_long_chains g c :
  clos_trans term (narrower g) c c ->
  forall n, exists l, chain g (c :: l) /\ n <= List.length l.
Proof.
  intros Hc. induction n as [|n (l & Hl & Hn)].
  - exists []. split; [constructor|auto].
  - destruct (chain_prepend _ _ _ Hc l Hl) as (m & Hm).
    exists (m ++ c :: l). split; auto.
    rewrite length_app. simpl. lia.
Qed.

Lemma chain_from_ancestor g t c :
  clos_refl_trans term (narrower g) t c ->
  forall l, chain g (c :: l) ->
  exists m, chain g (t :: m) /\ List.length l <= List.length m.
Proof.
  induction 1 as [a b Hab|a|a b c _ IH1 _ IH2]; intros l Hl.
  - exists (b :: l). split; [now constructor|simpl; lia].
  - exists l. auto.
  - destruct (IH2 l Hl) as (m2 & H2 & Hlen2).
    destruct (IH1 m2 H2) as (m1 & H1 & Hlen1).
    exists m1. split; auto. lia.
Qed.

Lemma above_cycle_never_fits g t c :
  clos_refl_trans term (narrower g) t c ->
  clos_trans term (narrower g) c c ->
  forall limit, fits limit g t = false.
Proof.
  intros Htc Hc limit. destruct (fits limit g t) eqn:E; auto.
  destruct (cycle_long_chains g c Hc limit) as (l & Hl & Hlen).
  destruct (chain_from_ancestor g t c Htc l Hl) as (m & Hm & Hlen').
  pose proof (fits_true_chain _ _ _ E _ Hm) as Hbound. simpl in Hbound. lia.
Qed.

(** X10.  When a narrower cycle can be reached from the scheme, no
    recursion limit lets the conversion return: every run fails, with a
    RecursionError when the preferred labels are literals, and [main]
    then exits with status 1 without writing the output. *)
Theorem reachable_cycle_never_converts g scheme c :
  hd_error (subjects g RDF_type (SKOS "ConceptScheme")) = Some scheme ->
  reachable g scheme c ->
  clos_trans term (narrower g) c c ->
  (forall clock limit k r, rdf_to_json clock limit g k <> Ok r) /\
  (literal_labels g ->
   (forall clock limit k, rdf_to_json clock limit g k = Raise RecursionError) /\
   (forall clock limit output,
      main clock limit g output =
        {| written := None;
           printed := Error_during_conversion RecursionError;
           exit_status := 1 |})).
Proof.
  intros Hs (t & Ht & Htc) Hc.
  pose proof (above_cycle_never_fits g t c Htc Hc) as Hfits.
  split.
  - intros clock limit k [out k'] Hrun.
    apply rdf_to_json_inv in Hrun.
    destruct Hrun as (scheme' & ch & k1 & Hs' & Happ & _).
    rewrite Hs in Hs'. inversion Hs'. subst scheme'.
    destruct (appended_calls _ _ _ _ _ _ _ Happ t Ht) as (k0 & n & k2 & Hn).
    apply concept_to_json_fits in Hn. rewrite Hfits in Hn. discriminate.
  - intros Hlab.
    assert (Hfail : forall clock limit k,
               rdf_to_json clock limit g k = Raise RecursionError).
    { intros clock limit k. unfold rdf_to_json.
      destruct (subjects g RDF_type (SKOS "ConceptScheme")) as [|s rest];
        [discriminate|].
      inversion Hs. subst s.
      unfold bind. rewrite top_concept_loop_eq.
      pose proof (narrower_loop_runs clock g Hlab
                    (concept_to_json clock limit g) (fits limit g)
                    (objects g scheme (SKOS "hasTopConcept"))
                    (concept_to_json_runs clock g Hlab limit) [] k) as H.
      assert (Hall : forallb (fits limit g)
                       (objects g scheme (SKOS "hasTopConcept")) = false).
      { destruct (forallb (fits limit g)
                    (objects g scheme (SKOS "hasTopConcept"))) eqn:E; auto.
        rewrite forallb_forall in E. specialize (E t Ht).
        rewrite Hfits in E. discriminate. }
      rewrite Hall in H. now rewrite H. }
    split; [exact Hfail|].
    intros clock limit output. unfold main. now rewrite Hfail.
Qed.

Lemma cyclic_cycle :
  clos_trans term (narrower Edge.cyclic) (Samples.ex "dog") (Samples.ex "dog").
Proof.
  apply t_trans with (y := Samples.ex "animals"); apply t_step;
    unfold narrower; vm_compute; auto.
Qed.

Lemma cyclic_literal_labels : literal_labels Edge.cyclic.
Proof.
  intros s o H. vm_compute in H.
  repeat (destruct H as [H|H]; [try discriminate H|]); try contradiction;
    inversion H; subst; do 3 eexists; reflexivity.
Qed.

Lemma reachable_cycle_never_converts_witness :
  (forall clock limit k r, rdf_to_json clock limit Edge.cyclic k <> Ok r) /\
  (literal_labels Edge.cyclic ->
   (forall clock limit k,
      rdf_to_json clock limit Edge.cyclic k = Raise RecursionError) /\
   (forall clock limit output,
      main clock limit Edge.cyclic output =
        {| written := None;
           printed := Error_during_conversion RecursionError;
           exit_status := 1 |})).
Proof.
  apply (reachable_cycle_never_converts Edge.cyclic (Samples.ex "scheme")
           (Samples.ex "dog")).
  - vm_compute. reflexivity.
  - exists (Samples.ex "animals"). split.
    + unfold top_concept. vm_compute. auto.
    + apply rt_step. unfold narrower. vm_compute. auto.
  - exact cyclic_cycle.
Defined.

(* ===================================================================== *)
(** ** Labels that are not literals                                      *)
(* ===================================================================== *)

Lemma first_fr_skips before rest :
  Forall (fun l => is_literal l /\ ~ tagged_fr l) before ->
  first_fr (before ++ rest) = first_fr rest.
Proof.
  induction 1 as [|x r [(s & l & d & ->) Hx] Hr IH]; simpl; auto.
  destruct (option_eqb l (Some "fr-fr")) eqn:E; auto.
  apply option_eqb_fr in E. subst l. exfalso. apply Hx. now exists s, d.
Qed.

(** X11.  The label loop stops at the first preferred label that is
    tagged "fr-fr" or is not a literal, whatever follows it.  In the
    first case that label is the name.  In the second the lookup of its
    language raises AttributeError, which ends the conversion of the
    concept and, when the concept is the first top concept, the whole
    run. *)
Theorem label_loop_stops_at_first_decisive g c before x after :
  objects g c (SKOS "prefLabel") = before ++ x :: after ->
  Forall (fun l => is_literal l /\ ~ tagged_fr l) before ->
  (tagged_fr x -> get_pref_label_fr g c = Ok (str x)) /\
  (~ is_literal x ->
   get_pref_label_fr g c = Raise AttributeError /\
   (forall clock limit k,
      concept_to_json clock (S limit) g c k = Raise AttributeError) /\
   (forall scheme,
      hd_error (subjects g RDF_type (SKOS "ConceptScheme")) = Some scheme ->
      hd_error (objects g scheme (SKOS "hasTopConcept")) = Some c ->
      forall clock limit k,
        rdf_to_json clock (S limit) g k = Raise AttributeError)).
Proof.
  intros Hobj Hbefore. split.
  - intros (s & d & ->). unfold get_pref_label_fr.
    rewrite Hobj, (first_fr_skips _ _ Hbefore). reflexivity.
  - intros Hx.
    assert (Hlabel : get_pref_label_fr g c = Raise AttributeError).
    { unfold get_pref_label_fr.
      rewrite Hobj, (first_fr_skips _ _ Hbefore). simpl.
      destruct x as [u|b|s l d]; auto.
      exfalso. apply Hx. now exists s, l, d. }
    assert (Hconcept : forall clock limit k,
               concept_to_json clock (S limit) g c k = Raise AttributeError).
    { intros clock limit k. simpl. unfold bind. now rewrite Hlabel. }
    split; [exact Hlabel|]. split; [exact Hconcept|].
    intros scheme Hs Htop clock limit k. unfold rdf_to_json.
    destruct (subjects g RDF_type (SKOS "ConceptScheme")) as [|s rest];
      [discriminate|].
    inversion Hs. subst s.
    destruct (objects g scheme (SKOS "hasTopConcept")) as [|t tops];
      [discriminate|].
    inversion Htop. subst t.
    unfold bind. cbn [top_concept_loop]. unfold bind.
    now rewrite Hconcept.
Qed.

Lemma label_loop_stops_at_first_decisive_witness :
  get_pref_label_fr Edge.resource_label (Samples.ex "dog")
    = Raise AttributeError /\
  (forall clock limit k,
     concept_to_json clock (S limit) Edge.resource_label (Samples.ex "dog") k
       = Raise AttributeError) /\
  (forall scheme,
     hd_error (subjects Edge.resource_label RDF_type (SKOS "ConceptScheme"))
       = Some scheme ->
     hd_error (objects Edge.resource_label scheme (SKOS "hasTopConcept"))
       = Some (Samples.ex "dog") ->
     forall clock limit k,
       rdf_to_json clock (S limit) Edge.resource_label k
         = Raise AttributeError).
Proof.
  refine (proj2 (label_loop_stops_at_first_decisive Edge.resource_label
                   (Samples.ex "dog") [] (Samples.ex "dog-label")
                   [Samples.tagged "Chien" "fr-fr"] _ _) _).
  - vm_compute. reflexivity.
  - constructor.
  - intros (s & l & d & H). discriminate H.
Defined.

(* ===================================================================== *)
(** ** The form of the hashed ids                                        *)
(* ===================================================================== *)

Lemma below_bound (P : Z -> Prop) (n : nat) :
  (forall m, m < n -> P (Z.of_nat m)) ->
  forall x, (0 <= x < Z.of_nat n)%Z -> P x.
Proof.
  intros H x Hx. rewrite <- (Z2Nat.id x) by lia. apply H. lia.
Qed.

Lemma land_ones_bound x n :
  (0 <= n)%Z -> (0 <= Z.land x (Z.ones n) < 2 ^ n)%Z.
Proof.
  intros Hn. rewrite Z.land_ones by exact Hn. apply Z.mod_pos_bound.
  now apply Z.pow_pos_nonneg.
Qed.

Lemma hex_digit_hex x : (0 <= x < 16)%Z -> is_hex_char (Uuid.hex_digit x).
Proof.
  revert x. apply (below_bound _ 16). intros m Hm.
  do 16 (destruct m as [|m]; [vm_compute; tauto|]). lia.
Qed.

Lemma low_nibble_hex b : is_hex_char (Uuid.hex_digit (Z.land b 15)).
Proof. apply hex_digit_hex. exact (land_ones_bound b 4 ltac:(lia)). Qed.

Lemma high_nibble_hex b :
  (0 <= b < 256)%Z -> is_hex_char (Uuid.hex_digit (Z.shiftr b 4)).
Proof.
  intros Hb. apply hex_digit_hex. rewrite Z.shiftr_div_pow2 by lia.
  change (2 ^ 4)%Z with 16%Z. split.
  - apply Z.div_pos; lia.
  - apply Z.div_lt_upper_bound; lia.
Qed.

Lemma octet_bound x : (0 <= Z.land x 255 < 256)%Z.
Proof. exact (land_ones_bound x 8 ltac:(lia)). Qed.

Lemma version_octet b :
  (0 <= Z.lor (Z.land b 15) 80 < 256)%Z /\
  Uuid.hex_digit (Z.shiftr (Z.lor (Z.land b 15) 80) 4) = "5"%char.
Proof.
  generalize (land_ones_bound b 4 ltac:(lia)). change (Z.ones 4) with 15%Z.
  generalize (Z.land b 15). apply (below_bound _ 16). intros m Hm.
  do 16 (destruct m as [|m]; [vm_compute; repeat split; congruence|]). lia.
Qed.

Lemma variant_octet b :
  (0 <= Z.lor (Z.land b 63) 128 < 256)%Z /\
  In (Uuid.hex_digit (Z.shiftr (Z.lor (Z.land b 63) 128) 4))
     ["8"; "9"; "a"; "b"]%char.
Proof.
  generalize (land_ones_bound b 6 ltac:(lia)). change (Z.ones 6) with 63%Z.
  generalize (Z.land b 63). apply (below_bound _ 64). intros m Hm.
  do 64 (destruct m as [|m];
         [vm_compute; split; [split; congruence|tauto]|]). lia.
Qed.

Lemma Some_eq {A} (x y : A) : Some x = Some y -> x = y.
Proof. intros H. now inversion H. Qed.

Lemma uuid5_canonical namespace name :
  canonical (Uuid.uuid5 namespace name).
Proof.
  unfold Uuid.uuid5, Uuid.sha1.
  set (p := Uuid.pad _).
  destruct (fold_left Uuid.compress _ _) as [[[[h0 h1] h2] h3] h4].
  cbn [Uuid.be_octets app Uuid.stamp firstn].
  cbn [Uuid.to_str firstn skipn Uuid.hex String.append].
  unfold canonical. split; [cbn [String.length]; reflexivity|]. split.
  { intros i [<-|[<-|[<-|[<-|[]]]]]; cbn [String.get]; reflexivity. }
  split.
  { cbn [String.get]. f_equal. apply (proj2 (version_octet _)). }
  split.
  { eexists. split; [cbn [String.get]; reflexivity|].
    apply (proj2 (variant_octet _)). }
  intros i a Hget Hni.
  do 36 (destruct i as [|i];
         [cbv beta iota delta [String.get] in Hget;
          first [ exfalso; apply Hni; simpl; tauto
                | apply Some_eq in Hget; subst a;
                  first [ apply low_nibble_hex
                        | apply high_nibble_hex;
                          first [ apply octet_bound
                                | apply (proj1 (version_octet _))
                                | apply (proj1 (variant_octet _)) ] ] ]
         |]).
  cbv beta iota delta [String.get] in Hget. discriminate.
Qed.

(** X12.  Whatever the URI, [generate_id] returns a string in the
    canonical form of a version-5 UUID; the id therefore differs from
    the URI it is derived from as soon as the URI is not 36 characters
    long or holds a character, such as a colon or a slash, that is
    neither a hyphen nor a lowercase hexadecimal digit. *)
Theorem generate_id_is_canonical uri :
  canonical (generate_id uri) /\
  (String.length uri <> 36 -> generate_id uri <> uri) /\
  (forall i a,
     String.get i uri = Some a -> ~ is_hex_char a -> a <> "-"%char ->
     generate_id uri <> uri).
Proof.
  pose proof (uuid5_canonical Uuid.NAMESPACE_URL uri) as Hcan.
  fold (generate_id uri) in Hcan.
  split; [exact Hcan|]. split.
  - intros Hlen E. rewrite E in Hcan. destruct Hcan as [Hl _]. contradiction.
  - intros i a Hget Hhex Hhyphen E. rewrite E in Hcan.
    destruct Hcan as (_ & Hhy & _ & _ & Hother).
    apply Hhex. apply (Hother i a Hget).
    intros Hi. apply Hhy in Hi. rewrite Hget in Hi. inversion Hi.
    contradiction.
Qed.

Lemma generate_id_is_canonical_witness :
  generate_id "http://ex/animals" <> "http://ex/animals".
Proof.
  refine (proj1 (proj2 (generate_id_is_canonical "http://ex/animals")) _).
  vm_compute. discriminate.
Defined.

Lemma rdf_to_json_duplicates clock limit g k out k' :
  rdf_to_json clock limit g k = Ok (out, k') ->
  forall root C, In root out -> In C (subnodes root) -> duplicated_with_uri g C.
Proof.
  intros Hrun root C Hroot HC.
  apply rdf_to_json_inv in Hrun.
  destruct Hrun as (scheme & ch & k1 & _ & Happ & -> & _).
  destruct Hroot as [<-|[]].
  rewrite subnodes_eq in HC. simpl in HC. destruct HC as [<-|HC].
  - intros l i K Hl. simpl in Hl. inversion Hl. subst l.
    eapply appended_duplicates; eauto.
    intros; eapply represents_root; eauto.
  - eapply (appended_all clock _ g (duplicated_with_uri g)); eauto.
    + intros uri nm d ts l i K Hl. discriminate.
    + intros; eapply concept_to_json_duplicates; eauto.
Qed.

(** X13.  In the returned tree the id of every category below the root is
    a canonical UUID, and a category and the tag that follows it bear
    different ids unless the subject's own string is such a UUID: in
    particular whenever that string is not 36 characters long. *)
Theorem category_and_tag_ids_differ clock limit g k out k' :
  rdf_to_json clock limit g k = Ok (out, k') ->
  forall root,
    In root out ->
    (forall K, In K (below root) -> type K = "category" -> canonical (id K)) /\
    (forall C l i K T,
       In C (subnodes root) -> children C = Some l ->
       nth_error l i = Some K -> type K = "category" ->
       nth_error l (S i) = Some T ->
       (~ canonical (id T) -> id K <> id T) /\
       (String.length (id T) <> 36 -> id K <> id T)).
Proof.
  intros Hrun root Hroot. split.
  - intros K HK Ht.
    pose proof Hrun as Hinv. apply rdf_to_json_inv in Hinv.
    destruct Hinv as (scheme & ch & k1 & _ & Happ & -> & _).
    destruct Hroot as [<-|[]].
    destruct (below_root_origin _ _ _ _ _ _ _ _ _ _ _ _ _ Happ K HK)
      as (c & _ & Hr).
    rewrite (represents_category_id _ _ _ Hr Ht).
    apply uuid5_canonical.
  - intros C l i K T HC Hl HK Ht HT.
    destruct (rdf_to_json_duplicates _ _ _ _ _ _ Hrun root C Hroot HC
                l i K Hl HK Ht)
      as (T' & c & HT' & _ & _ & _ & HidT & HidK & _).
    rewrite HT in HT'. inversion HT'. subst T'.
    assert (Hcan : id K = id T -> canonical (id T)).
    { intros E. rewrite <- E, HidK. apply uuid5_canonical. }
    split.
    + intros Hn E. apply Hn. auto.
    + intros Hn E. apply Hn. apply (Hcan E).
Qed.

Lemma category_and_tag_ids_differ_witness :
  exists out k',
    rdf_to_json Samples.ticks 10 Samples.thesaurus 0 = Ok (out, k') /\
    forall root,
      In root out ->
      (forall K, In K (below root) -> type K = "category" -> canonical (id K)) /\
      (forall C l i K T,
         In C (subnodes root) -> children C = Some l ->
         nth_error l i = Some K -> type K = "category" ->
         nth_error l (S i) = Some T ->
         (~ canonical (id T) -> id K <> id T) /\
         (String.length (id T) <> 36 -> id K <> id T)).
Proof.
  assert (H : exists out k',
             rdf_to_json Samples.ticks 10 Samples.thesaurus 0 = Ok (out, k'))
    by (vm_compute; eauto).
  destruct H as (out & k' & H). exists out, k'. split; [exact H|].
  exact (category_and_tag_ids_differ Samples.ticks 10 Samples.thesaurus 0
           out k' H).
Defined.

(* ===================================================================== *)
(** ** The flat converter                                                *)
(* ===================================================================== *)

Example flat_run :
  Flat.build_hierarchy Edge.seconds Edge.in_scheme (Samples.ex "scheme") 0 =
  Ok (Flat.Node "category" "http://ex/scheme" (Some "Thesaurus")
        (Some
           [Flat.Node "tag" "http://ex/animals" (Some "Animaux") None None
                      1700000001 None;
            Flat.Node "tag" "http://ex/dog" None
                      (Some [Flat.Node "tag" "http://ex/animals"
                                       (Some "Animaux") None None
                                       1700000003 None])
                      (Some "2020-01-01") 1700000002 None])
        None 1700000000 (Some true), 4).
Proof. vm_compute. reflexivity. Qed.

Lemma child_tags_loop_inv clock g todo :
  forall acc k out k',
    Flat.child_tags_loop clock g todo acc k = Ok (out, k') ->
    exists l,
      out = acc ++ l /\
      Forall2 (fun b m => Flat.stands_for g b m /\ Flat.children m = None)
              todo l /\
      k' = k + List.length todo.
Proof.
  induction todo as [|b rest IH]; intros acc k out k' H; simpl in H.
  - inversion H. subst. exists []. rewrite app_nil_r. repeat split; auto.
  - apply bind_Ok in H. destruct H as (label & k0 & Hlabel & H).
    apply lift_Ok in Hlabel. destruct Hlabel as [Hlabel ->].
    unfold bind, Flat.time_s in H.
    apply IH in H. destruct H as (l & -> & Hl & ->).
    eexists (_ :: l). split; [now rewrite <- app_assoc|]. split.
    + constructor; auto. unfold Flat.stands_for. simpl. repeat split; auto.
    + simpl. lia.
Qed.

Lemma concepts_loop_inv clock g todo :
  forall acc k out k',
    Flat.concepts_loop clock g todo acc k = Ok (out, k') ->
    exists l,
      out = acc ++ l /\
      Forall2 (Flat_concept_node g) todo l /\
      k' = k + List.length todo +
           List.length (flat_map (fun c => objects g c (SKOS "broader")) todo).
Proof.
  induction todo as [|c rest IH]; intros acc k out k' H;
    cbn [Flat.concepts_loop] in H.
  - inversion H. subst. exists []. rewrite app_nil_r. simpl.
    split; [reflexivity|]. split; [constructor|lia].
  - apply bind_Ok in H. destruct H as (label & k0 & Hlabel & H).
    apply lift_Ok in Hlabel. destruct Hlabel as [Hlabel ->].
    unfold bind at 1, Flat.time_s in H.
    destruct (objects g c (SKOS "broader")) as [|b bs] eqn:E.
    + apply IH in H. destruct H as (l & -> & Hl & ->).
      eexists (_ :: l). split; [now rewrite <- app_assoc|]. split.
      * constructor; auto. unfold Flat_concept_node, Flat.stands_for.
        rewrite E. simpl. repeat split; auto.
      * simpl. rewrite E. simpl. lia.
    + apply bind_Ok in H. destruct H as (tags & k1 & Htags & H).
      apply child_tags_loop_inv in Htags.
      destruct Htags as (t & -> & Ht & ->). simpl in H.
      apply IH in H. destruct H as (l & -> & Hl & ->).
      eexists (_ :: l). split; [now rewrite <- app_assoc|]. split.
      * constructor; auto. unfold Flat_concept_node, Flat.stands_for.
        rewrite E. simpl. split; [repeat split; auto|].
        exists t. split; auto.
      * simpl. rewrite E, length_app. simpl. lia.
Qed.

(** X14.  The flat converter returns a two-level tree: a root of type
    "category" bearing the scheme's own string, its first dc:title (or
    "Unknown Title") and its creation date, and under it one tag for each
    subject in the scheme, in iteration order, bearing the subject's own
    string as id; a subject without broader objects has no [children]
    key, another one has one childless tag for each of its broader
    objects. *)
Theorem flat_tree_follows_the_graph clock g scheme k root k' :
  Flat.build_hierarchy clock g scheme k = Ok (root, k') ->
  Flat.type root = "category" /\ Flat.id root = str scheme /\
  Flat.name root = Some (Flat.get_scheme_title g scheme) /\
  ((forall o, ~ In (scheme, DC "title", o) g) ->
   Flat.name root = Some "Unknown Title") /\
  Flat.creationDate root = Flat.get_creation_date g scheme /\
  Flat.showChildren root = Some true /\
  exists l,
    Flat.children root = Some l /\
    Forall2 (Flat_concept_node g) (subjects g (SKOS "inScheme") scheme) l.
Proof.
  unfold Flat.build_hierarchy. intros H.
  unfold bind at 1, Flat.time_s in H.
  apply bind_Ok in H. destruct H as (ch & k1 & Hloop & H).
  unfold ret in H. inversion H. subst. simpl.
  apply concepts_loop_inv in Hloop. destruct Hloop as (l & -> & Hl & _).
  repeat split; auto.
  - intros Hno. unfold Flat.get_scheme_title.
    now rewrite (no_objects _ _ _ Hno).
  - exists l. auto.
Qed.

Lemma flat_tree_follows_the_graph_witness :
  exists root k',
    Flat.build_hierarchy Edge.seconds Edge.in_scheme (Samples.ex "scheme") 0
      = Ok (root, k') /\
    Flat.type root = "category" /\
    Flat.id root = str (Samples.ex "scheme") /\
    Flat.name root
      = Some (Flat.get_scheme_title Edge.in_scheme (Samples.ex "scheme")) /\
    ((forall o, ~ In (Samples.ex "scheme", DC "title", o) Edge.in_scheme) ->
     Flat.name root = Some "Unknown Title") /\
    Flat.creationDate root
      = Flat.get_creation_date Edge.in_scheme (Samples.ex "scheme") /\
    Flat.showChildren root = Some true /\
    exists l,
      Flat.children root = Some l /\
      Forall2 (Flat_concept_node Edge.in_scheme)
              (subjects Edge.in_scheme (SKOS "inScheme") (Samples.ex "scheme"))
              l.
Proof.
  assert (H : exists root k',
             Flat.build_hierarchy Edge.seconds Edge.in_scheme
               (Samples.ex "scheme") 0 = Ok (root, k'))
    by (vm_compute; eauto).
  destruct H as (root & k' & H). exists root, k'. split; [exact H|].
  exact (flat_tree_follows_the_graph Edge.seconds Edge.in_scheme
           (Samples.ex "scheme") 0 root k' H).
Defined.

Lemma first_fr_raises labels e :
  first_fr labels = Raise e -> e = AttributeError.
Proof.
  induction labels as [|x r IH]; simpl; [discriminate|].
  destruct x as [u|b|s l d]; simpl; try (intros H; now inversion H).
  destruct (option_eqb l (Some "fr-fr")); [discriminate|exact IH].
Qed.

Lemma child_tags_loop_raises clock g todo :
  forall acc k e,
    Flat.child_tags_loop clock g todo acc k = Raise e -> e = AttributeError.
Proof.
  induction todo as [|b rest IH]; intros acc k e H; simpl in H.
  - discriminate.
  - unfold bind, lift, Flat.get_pref_label_fr in H.
    destruct (first_fr (objects g b (SKOS "prefLabel"))) as [label|e'] eqn:E.
    + simpl in H. eapply IH; eauto.
    + inversion H. subst. eapply first_fr_raises; eauto.
Qed.

Lemma concepts_loop_raises clock g todo :
  forall acc k e,
    Flat.concepts_loop clock g todo acc k = Raise e -> e = AttributeError.
Proof.
  induction todo as [|c rest IH]; intros acc k e H;
    cbn [Flat.concepts_loop] in H.
  - discriminate.
  - unfold bind at 1, lift, Flat.get_pref_label_fr in H.
    destruct (first_fr (objects g c (SKOS "prefLabel"))) as [label|e'] eqn:E.
    + unfold bind at 1, Flat.time_s in H.
      destruct (objects g c (SKOS "broader")) as [|b bs].
      * eapply IH; eauto.
      * unfold bind in H.
        destruct (Flat.child_tags_loop clock g (b :: bs) [] (S k))
          as [[tags k1]|e'] eqn:Et.
        -- eapply IH; eauto.
        -- inversion H. subst. eapply child_tags_loop_raises; eauto.
    + inversion H. subst. eapply first_fr_raises; eauto.
Qed.

Lemma child_tags_loop_runs clock g todo :
  literal_labels g ->
  forall acc k,
    exists out,
      Flat.child_tags_loop clock g todo acc k = Ok (out, k + List.length todo).
Proof.
  intros Hlab. induction todo as [|b rest IH]; intros acc k; simpl.
  - exists acc. unfold ret. f_equal. f_equal. lia.
  - unfold bind, lift, Flat.get_pref_label_fr.
    destruct (first_fr_total _ (literal_labels_objects g b Hlab)) as [label ->].
    simpl. destruct (IH (acc ++ [Flat.Node "tag" (Flat.generate_id b) label None
                                   (Flat.get_creation_date g b) (clock k) None])
                       (S k)) as [out ->].
    exists out. f_equal. f_equal. lia.
Qed.

Lemma concepts_loop_runs clock g todo :
  literal_labels g ->
  forall acc k,
    exists out,
      Flat.concepts_loop clock g todo acc k =
      Ok (out, k + List.length todo +
               List.length (flat_map (fun c => objects g c (SKOS "broader"))
                                     todo)).
Proof.
  intros Hlab. induction todo as [|c rest IH]; intros acc k;
    cbn [Flat.concepts_loop].
  - exists acc. unfold ret. simpl. f_equal. f_equal. lia.
  - unfold bind at 1, lift, Flat.get_pref_label_fr.
    destruct (first_fr_total _ (literal_labels_objects g c Hlab)) as [label ->].
    unfold bind at 1, Flat.time_s. cbn [flat_map].
    destruct (objects g c (SKOS "broader")) as [|b bs] eqn:E.
    + match goal with
      | |- exists out, Flat.concepts_loop _ _ _ ?a ?j = _ =>
          destruct (IH a j) as [out Hout]
      end.
      exists out. rewrite Hout. simpl. f_equal. f_equal. lia.
    + unfold bind.
      destruct (child_tags_loop_runs clock g (b :: bs) Hlab [] (S k))
        as [tags ->].
      match goal with
      | |- exists out, Flat.concepts_loop _ _ _ ?a ?j = _ =>
          destruct (IH a j) as [out Hout]
      end.
      exists out. rewrite Hout. rewrite length_app. simpl. f_equal. f_equal. lia.
Qed.

Lemma build_hierarchy_runs clock g scheme k :
  literal_labels g ->
  exists root,
    Flat.build_hierarchy clock g scheme k
    = Ok (root, k + Flat_readings g scheme).
Proof.
  intros Hlab. unfold Flat.build_hierarchy.
  unfold bind at 1, Flat.time_s. unfold bind.
  destruct (concepts_loop_runs clock g (subjects g (SKOS "inScheme") scheme)
              Hlab [] (S k)) as [ch ->].
  eexists. unfold ret, Flat_readings. f_equal. f_equal. lia.
Qed.

(** X15.  The flat converter does not recurse: it can fail only with the
    AttributeError of a label that is not a literal, and when the
    preferred labels are literals it returns on every graph, cyclic or
    not, after one reading of the clock for the root, one for each
    subject in the scheme and one for each of their broader objects. *)
Theorem flat_converter_returns clock g scheme k :
  (forall e, Flat.build_hierarchy clock g scheme k = Raise e ->
             e = AttributeError) /\
  (literal_labels g ->
   exists root,
     Flat.build_hierarchy clock g scheme k
     = Ok (root, k + Flat_readings g scheme)).
Proof.
  unfold Flat.build_hierarchy. split.
  - intros e H. unfold bind at 1, Flat.time_s in H. unfold bind in H.
    destruct (Flat.concepts_loop clock g (subjects g (SKOS "inScheme") scheme)
                [] (S k)) as [[ch k1]|e'] eqn:E.
    + discriminate.
    + inversion H. subst. eapply concepts_loop_raises; eauto.
  - intros Hlab. fold (Flat.build_hierarchy clock g scheme k).
    now apply build_hierarchy_runs.
Qed.

Lemma flat_converter_returns_witness :
  exists root,
    Flat.build_hierarchy Edge.seconds Edge.cyclic (Samples.ex "scheme") 0
    = Ok (root, 0 + Flat_readings Edge.cyclic (Samples.ex "scheme")).
Proof.
  refine (proj2 (flat_converter_returns Edge.seconds Edge.cyclic
                   (Samples.ex "scheme") 0) _).
  exact cyclic_literal_labels.
Defined.

(** X16.  The flat converter has no fallback for names: among literal
    labels, the name of a concept is null exactly when none is tagged
    "fr-fr", whatever other labels the concept has, and is otherwise the
    first label so tagged. *)
Theorem flat_name_has_no_fallback g c :
  Forall is_literal (objects g c (SKOS "prefLabel")) ->
  (Flat.get_pref_label_fr g c = Ok None <->
   forall l, In l (objects g c (SKOS "prefLabel")) -> ~ tagged_fr l) /\
  (forall s, Flat.get_pref_label_fr g c = Ok (Some s) ->
     exists before l after,
       objects g c (SKOS "prefLabel") = before ++ l :: after /\
       tagged_fr l /\ (forall x, In x before -> ~ tagged_fr x) /\ s = str l).
Proof.
  intros Hlit. unfold Flat.get_pref_label_fr. split; [split|].
  - intros Hnone l Hl Ht.
    destruct (first_fr_found _ Hlit (ex_intro _ l (conj Hl Ht)))
      as (before & l' & after & _ & _ & _ & Hf).
    rewrite Hf in Hnone. discriminate.
  - now apply first_fr_none.
  - intros s Hs.
    assert (Hex : exists l, In l (objects g c (SKOS "prefLabel")) /\ tagged_fr l).
    { destruct (List.Exists_dec (fun l => exists s d, l = Literal s (Some "fr-fr") d)
                  (objects g c (SKOS "prefLabel"))) as [He|Hne].
      - intros [u|b|s' [l'|] d'].
        + right. intros (s0 & d0 & E). discriminate.
        + right. intros (s0 & d0 & E). discriminate.
        + destruct (string_dec l' "fr-fr") as [->|Hn].
          * left. eauto.
          * right. intros (s0 & d0 & E). inversion E. contradiction.
        + right. intros (s0 & d0 & E). discriminate.
      - apply Exists_exists in He. exact He.
      - exfalso. rewrite first_fr_none in Hs; [discriminate|exact Hlit|].
        intros l Hl Ht. apply Hne. apply Exists_exists. exists l. auto. }
    destruct (first_fr_found _ Hlit Hex) as (before & l & after & E & Ht & Hb & Hf).
    rewrite Hf in Hs. inversion Hs.
    exists before, l, after. auto.
Qed.

Lemma flat_name_has_no_fallback_witness :
  Flat.get_pref_label_fr Edge.in_scheme (Samples.ex "dog") = Ok None <->
  forall l, In l (objects Edge.in_scheme (Samples.ex "dog") (SKOS "prefLabel")) ->
            ~ tagged_fr l.
Proof.
  refine (proj1 (flat_name_has_no_fallback Edge.in_scheme (Samples.ex "dog") _)).
  vm_compute. repeat constructor. do 3 eexists. reflexivity.
Defined.




(* ===================================================================== *)
(** ** Why a run fails, and what [main] leaves behind                    *)
(* ===================================================================== *)







